(** * AlgoForge: the LeetCode solutions Course Schedule, Course Schedule II
      and Find Closest Person

    A shallow embedding of the three C++ functions
    [Solution::canFinish]   (src/leetcode/Course_Schedule.cpp),
    [Solution::findOrder]   (src/leetcode/Course_Schedule_II.cpp) and
    [Solution::findClosest] (src/leetcode/Find_Closest_Person.cpp).

    Conventions of the embedding.
    - A C++ [int] is a [Z]; a [vector<T>] is a [list T]; the [queue<int>]
      is a [list Z] whose head is the front.
    - [v[i]] is [operator[]] without bounds check: outside the vector the
      C++ program has undefined behaviour.  Every function of the embedding
      returns an [option]; [None] stands for "the C++ program has no defined
      result" (an index outside its vector, a vector constructed with a
      negative size, a signed overflow in [findClosest]).
    - The counters of [indegre] are [int]s: [indegre[it]++] and
      [indegre[it]--] have a defined result only if it is representable
      (signed overflow is undefined behaviour), which [in_int] checks. *)

From Equations Require Import Equations.
From Equations.Prop Require Import Logic.
From stdpp Require Import base option list list_numbers relations.

Local Open Scope Z_scope.

(** ** Vectors *)

(** [v[i]] read. *)
Definition at_ {A} (v : list A) (i : Z) : option A :=
  if decide (0 ≤ i) then v !! Z.to_nat i else None.

(** [v[i] = x] write; the caller has read [v[i]] before, so the index is
    known to lie inside the vector. *)
Definition put {A} (v : list A) (i : Z) (x : A) : list A :=
  <[Z.to_nat i := x]> v.

(** [vector<T> v(n, x)]: a negative [n] converts to a huge [size_t] and the
    constructor throws. *)
Definition make {A} (n : Z) (x : A) : option (list A) :=
  if decide (0 ≤ n) then Some (replicate (Z.to_nat n) x) else None.

(** ** Integers *)

Definition min_int : Z := - 2 ^ 31.
Definition max_int : Z := 2 ^ 31 - 1.

(** The value of an arithmetic expression of type [int]: defined only when
    it is representable. *)
Definition in_int (v : Z) : option Z :=
  if decide (min_int ≤ v ≤ max_int) then Some v else None.

Lemma in_int_Some v w : in_int v = Some w ↔ w = v ∧ min_int ≤ v ≤ max_int.
Proof.
  unfold in_int. destruct (decide (min_int ≤ v ≤ max_int)); split.
  - by intros [= ->].
  - by intros [-> _].
  - done.
  - by intros [_ ?].
Qed.

(** ** The phases shared by [canFinish] and [findOrder] *)

Module Kahn.

(** [for (auto it : pre) adj[it[src]].push_back(it[dst]);]
    [canFinish] has [src = 0], [dst = 1]; [findOrder] has [src = 1],
    [dst = 0]. *)
Fixpoint add_edges (src dst : Z) (pre : list (list Z)) (adj : list (list Z))
  : option (list (list Z)) :=
  match pre with
  | [] => Some adj
  | it :: pre' =>
      u ← at_ it src;
      v ← at_ it dst;
      row ← at_ adj u;
      add_edges src dst pre' (put adj u (row ++ [v]))
  end.

(** [for (auto it : adj[i]) indegre[it]++;] *)
Fixpoint bump (row : list Z) (indegre : list Z) : option (list Z) :=
  match row with
  | [] => Some indegre
  | it :: row' =>
      d ← at_ indegre it;
      d' ← in_int (d + 1);
      bump row' (put indegre it d')
  end.

(** [for (int i = 0; i < n; i++) for (auto it : adj[i]) indegre[it]++;]
    with [idx] the values of [i] still to come. *)
Fixpoint count_degrees (idx : list Z) (adj : list (list Z)) (indegre : list Z)
  : option (list Z) :=
  match idx with
  | [] => Some indegre
  | i :: idx' =>
      row ← at_ adj i;
      indegre' ← bump row indegre;
      count_degrees idx' adj indegre'
  end.

(** [for (int i = 0; i < n; i++) if (indegre[i] == 0) qu.push(i);] *)
Fixpoint seed (idx : list Z) (indegre : list Z) (qu : list Z)
  : option (list Z) :=
  match idx with
  | [] => Some qu
  | i :: idx' =>
      d ← at_ indegre i;
      seed idx' indegre (if decide (d = 0) then qu ++ [i] else qu)
  end.

(** [for (auto it : adj[top]) { indegre[it]--; if (indegre[it] == 0) qu.push(it); }] *)
Fixpoint relax (row : list Z) (indegre qu : list Z)
  : option (list Z * list Z) :=
  match row with
  | [] => Some (indegre, qu)
  | it :: row' =>
      d ← at_ indegre it;
      d' ← in_int (d - 1);
      relax row' (put indegre it d')
            (if decide (d' = 0) then qu ++ [it] else qu)
  end.

(** The state of the [while] loop: [indegre], [qu] and [topo]. *)
Record state := State { indegre : list Z; qu : list Z; topo : list Z }.

(** One iteration of [while (!qu.empty())], the queue being [top :: qu']:
    [top] leaves the queue and joins [topo], then its row is relaxed.
    ([canFinish] has [topo.push_back(top); qu.pop();], [findOrder] has
    [qu.pop(); topo.push_back(top);]: the same state after both.) *)
Definition body (adj : list (list Z)) (ind : list Z) (top : Z)
  (qu' topo : list Z) : option state :=
  row ← at_ adj top;
  '(ind', qu'') ← relax row ind qu';
  Some (State ind' qu'' (topo ++ [top])).

(** What bounds the number of iterations still to come: the items waiting
    in the queue and the items whose counter is still positive. *)
Definition waiting (l : list Z) : nat := length (filter (λ d, 0 < d) l).
Definition measure (st : state) : nat :=
  (length (qu st) + waiting (indegre st))%nat.

(** An iteration makes the measure smaller (the lemmas that the definition
    of the loop needs). *)
Lemma waiting_put ind it d x :
  at_ ind it = Some d →
  (waiting (put ind it x) + (if decide (0 < d)%Z then 1 else 0)
   = waiting ind + (if decide (0 < x)%Z then 1 else 0))%nat.
Proof.
  unfold at_, put, waiting. case_decide; [|done]. intros Hd.
  rewrite insert_take_drop by (by eapply lookup_lt_Some).
  rewrite <- (take_drop_middle _ _ _ Hd) at 3.
  rewrite !filter_app, !filter_cons, !length_app.
  repeat case_decide; simpl; lia.
Qed.

Lemma relax_measure row : ∀ ind qu ind' qu',
  relax row ind qu = Some (ind', qu') →
  (length qu' + waiting ind' ≤ length qu + waiting ind)%nat.
Proof.
  induction row as [|it row IH]; intros ind qu ind' qu' H; simpl in H.
  - by simplify_eq.
  - destruct (at_ ind it) as [d|] eqn:Hd; simpl in H; [|done].
    destruct (in_int (d - 1)) as [d'|] eqn:Hd'; simpl in H; [|done].
    apply in_int_Some in Hd' as [-> _].
    apply IH in H. pose proof (waiting_put ind it d (d - 1) Hd) as Hw.
    repeat case_decide; rewrite ?length_app in H; simpl in *; lia.
Qed.

Lemma body_measure adj ind top qu' topo st' :
  body adj ind top qu' topo = Some st' →
  (measure st' < measure (State ind (top :: qu') topo))%nat.
Proof.
  unfold body. intros Hb. destruct (at_ adj top) as [row|]; simpl in Hb; [|done].
  destruct (relax row ind qu') as [[ind' qu'']|] eqn:Hr; simpl in Hb; [|done].
  simplify_eq. apply relax_measure in Hr. unfold measure; simpl. lia.
Qed.

(** [while (!qu.empty()) { top = qu.front(); qu.pop(); topo.push_back(top);
    for (auto it : adj[top]) ... }].  The loop ends whatever the state it
    starts from: an item is pushed only when its counter falls from 1 to 0. *)
Equations? drain (adj : list (list Z)) (st : state) : option state
  by wf (measure st) lt :=
  drain adj (State ind [] topo) := Some (State ind [] topo);
  drain adj (State ind (top :: qu') topo) with inspect (body adj ind top qu' topo) := {
    | exist _ None _ => None
    | exist _ (Some st') Hb => drain adj st' }.
Proof. by eapply body_measure. Qed.

End Kahn.

(** ** The two resolvers *)

(** [Solution::canFinish], up to the end of the [while] loop: the vector
    [topo] that the loop leaves.  Each pair [(a, b)] is stored as
    [adj[a].push_back(b)]. *)
Definition canFinish_topo (n : Z) (pre : list (list Z)) : option (list Z) :=
  adj0 ← make n [];
  adj ← Kahn.add_edges 0 1 pre adj0;
  ind0 ← make n 0;
  ind ← Kahn.count_degrees (seqZ 0 n) adj ind0;
  qu ← Kahn.seed (seqZ 0 n) ind [];
  st ← Kahn.drain adj (Kahn.State ind qu []);
  Some (Kahn.topo st).

(** [return (topo.size() == n);] where [n ≥ 0], the vectors having been
    constructed. *)
Definition canFinish (n : Z) (pre : list (list Z)) : option bool :=
  topo ← canFinish_topo n pre;
  Some (bool_decide (Z.of_nat (length topo) = n)).

(** [Solution::findOrder], up to the end of the [while] loop.  Each pair
    [(a, b)] is stored as [adj[b].push_back(a)]. *)
Definition findOrder_topo (n : Z) (pre : list (list Z)) : option (list Z) :=
  adj0 ← make n [];
  adj ← Kahn.add_edges 1 0 pre adj0;
  ind0 ← make n 0;
  ind ← Kahn.count_degrees (seqZ 0 n) adj ind0;
  qu ← Kahn.seed (seqZ 0 n) ind [];
  st ← Kahn.drain adj (Kahn.State ind qu []);
  Some (Kahn.topo st).

(** [if (topo.size() == n) return topo; return {};] *)
Definition findOrder (n : Z) (pre : list (list Z)) : option (list Z) :=
  topo ← findOrder_topo n pre;
  Some (if decide (Z.of_nat (length topo) = n) then topo else []).

(** The adjacency vectors alone, as the first loop of each function leaves
    them. *)
Definition canFinish_adj (n : Z) (pre : list (list Z)) : option (list (list Z)) :=
  adj0 ← make n []; Kahn.add_edges 0 1 pre adj0.
Definition findOrder_adj (n : Z) (pre : list (list Z)) : option (list (list Z)) :=
  adj0 ← make n []; Kahn.add_edges 1 0 pre adj0.

(** ** Find Closest Person *)

Module Closest.

Definition INT_MIN : Z := - 2 ^ 31.
Definition INT_MAX : Z := 2 ^ 31 - 1.

(** The value of an [int] expression: defined only when it is
    representable (signed overflow is undefined behaviour). *)
Definition int (v : Z) : option Z :=
  if decide (INT_MIN ≤ v ≤ INT_MAX) then Some v else None.

(** [abs(d)] of <cstdlib>: undefined when the result is not representable,
    that is for [d = INT_MIN]. *)
Definition abs (d : Z) : option Z := int (Z.abs d).

Definition findClosest (x y z : Z) : option Z :=
  xz ← int (x - z);
  xzDist ← abs xz;
  yz ← int (y - z);
  yzDist ← abs yz;
  if decide (xzDist < yzDist) then Some 1
  else if decide (xzDist > yzDist) then Some 2
  else Some 0.

End Closest.

(** ** The notions of the specification *)

(** A well-formed input: [n ≥ 0] and every element of [pre] is a pair
    [[a; b]] of items of [[0, n)]. *)
Definition valid_input (n : Z) (pre : list (list Z)) : Prop :=
  0 ≤ n ∧ Forall (λ it, length it = 2%nat ∧ Forall (λ x, 0 ≤ x < n) it) pre.

(** [a] depends on [b]: the pair [(a, b)] is in the list. *)
Definition depends (pre : list (list Z)) (a b : Z) : Prop := [a; b] ∈ pre.

(** The prerequisite graph has no cycle. *)
Definition acyclic (pre : list (list Z)) : Prop :=
  ∀ v, ¬ tc (depends pre) v v.

(** [x] is strictly before [y] in [l]. *)
Definition before (x y : Z) (l : list Z) : Prop :=
  ∃ l1 l2 l3, l = l1 ++ x :: l2 ++ y :: l3.

(** The row of [u] in the adjacency vectors, [[]] outside them. *)
Definition out (adj : list (list Z)) (u : Z) : list Z := default [] (at_ adj u).

(** How often [v] occurs in [l]. *)
Definition cnt (v : Z) (l : list Z) : nat := length (filter (λ x, x = v) l).

(** The items of [[0, n)] that are not in [done]. *)
Definition rest (n : Z) (done : list Z) : list Z :=
  filter (λ u, u ∉ done) (seqZ 0 n).

(** The rows of the items [us], one after the other. *)
Definition outs (adj : list (list Z)) (us : list Z) : list Z := us ≫= out adj.
Arguments outs : simpl never.

(** The number of entries [v] in the rows of the items not in [done]. *)
Definition remaining (adj : list (list Z)) (n : Z) (done : list Z) (v : Z) : nat :=
  cnt v (outs adj (rest n done)).

(** The edges that the adjacency vectors hold. *)
Definition edge (adj : list (list Z)) (u v : Z) : Prop := v ∈ out adj u.

(** Both functions from [vector<int> indegre(n,0)] to the exit of the
    [while] loop, given the adjacency vectors: the vector [topo] at the
    exit. *)
Definition run (n : Z) (adj : list (list Z)) : option (list Z) :=
  ind0 ← make n 0;
  ind ← Kahn.count_degrees (seqZ 0 n) adj ind0;
  q ← Kahn.seed (seqZ 0 n) ind [];
  st ← Kahn.drain adj (Kahn.State ind q []);
  Some (Kahn.topo st).

(** The states that the [while] loop started in [s0] passes through at its
    head, where [qu.empty()] is tested. *)
Inductive at_head (adj : list (list Z)) (s0 : Kahn.state) : Kahn.state → Prop :=
  | head_entry : at_head adj s0 s0
  | head_next ind top q t st' :
      at_head adj s0 (Kahn.State ind (top :: q) t) →
      Kahn.body adj ind top q t = Some st' →
      at_head adj s0 st'.

(** The states inside an iteration: [top] has moved from the queue to [topo]
    and the [for] loop has visited the part [row1] of the row of [top]
    ([row1 = []] right after [topo.push_back(top)], the whole row at the end
    of the iteration). *)
Inductive in_loop (adj : list (list Z)) (s0 : Kahn.state) : Kahn.state → Prop :=
  | loop_head st : at_head adj s0 st → in_loop adj s0 st
  | loop_for ind top q t row1 row2 ind' q' :
      at_head adj s0 (Kahn.State ind (top :: q) t) →
      at_ adj top = Some (row1 ++ row2) →
      Kahn.relax row1 ind q = Some (ind', q') →
      in_loop adj s0 (Kahn.State ind' q' (t ++ [top])).

(** The state in which either function enters its [while] loop. *)
Definition entry (n : Z) (adj : list (list Z)) : option Kahn.state :=
  ind0 ← make n 0;
  ind ← Kahn.count_degrees (seqZ 0 n) adj ind0;
  q ← Kahn.seed (seqZ 0 n) ind [];
  Some (Kahn.State ind q []).

Global Instance valid_input_dec n pre : Decision (valid_input n pre).
Proof. unfold valid_input. apply _. Defined.

(** The sample inputs of the specification: the diamond, the chain, the
    two-item cycle and the self-loop. *)
Definition diamond : list (list Z) := [[1; 0]; [2; 0]; [3; 1]; [3; 2]].
Definition chain : list (list Z) := [[1; 0]; [2; 1]; [3; 2]].
Definition two_cycle : list (list Z) := [[0; 1]; [1; 0]].
Definition self_loop : list (list Z) := [[0; 0]].

(** The vector [ind] has size [n] and holds [f v] at every index [v]. *)
Definition tab (n : Z) (ind : list Z) (f : Z → Z) : Prop :=
  length ind = Z.to_nat n ∧ ∀ v, 0 ≤ v < n → at_ ind v = Some (f v).

(** An element of [pre] that both functions can read: [it[0]] and [it[1]]
    exist and are items of [[0, n)] (entries after the second are never
    looked at). *)
Definition readable (n : Z) (it : list Z) : Prop :=
  ∃ a b, at_ it 0 = Some a ∧ at_ it 1 = Some b ∧ 0 ≤ a < n ∧ 0 ≤ b < n.

(** The item [v] is the first component of no pair: it has no prerequisite. *)
Definition no_prerequisite (pre : list (list Z)) (v : Z) : Prop :=
  Forall (λ it, at_ it 0 ≠ Some v) pre.

Global Instance no_prerequisite_dec pre v : Decision (no_prerequisite pre v).
Proof. unfold no_prerequisite. apply _. Defined.

(** [r] is a schedule of the input: every item of [[0, n)] once, and for
    every pair [(a, b)] the item [b] before the item [a]. *)
Definition schedule (n : Z) (pre : list (list Z)) (r : list Z) : Prop :=
  r ≡ₚ seqZ 0 n ∧ ∀ a b, depends pre a b → before b a r.

(** * Proofs *)

(** ** Vectors and counting *)

Lemma at_Some {A} (l : list A) i x :
  at_ l i = Some x ↔ 0 ≤ i ∧ l !! Z.to_nat i = Some x.
Proof.
  unfold at_. destruct (decide (0 ≤ i)); split; try done; tauto.
Qed.

Lemma at_lt {A} (l : list A) i x :
  at_ l i = Some x → 0 ≤ i < Z.of_nat (length l).
Proof. rewrite at_Some. intros [? H%lookup_lt_Some]. lia. Qed.

Lemma at_is_Some {A} (l : list A) i :
  0 ≤ i < Z.of_nat (length l) → is_Some (at_ l i).
Proof.
  intros ?. unfold at_. rewrite decide_True by lia.
  apply lookup_lt_is_Some. lia.
Qed.

Lemma at_put {A} (l : list A) i j x :
  0 ≤ i < Z.of_nat (length l) → 0 ≤ j →
  at_ (put l i x) j = if decide (j = i) then Some x else at_ l j.
Proof.
  intros ??. unfold at_, put. destruct (decide (0 ≤ j)); [|lia].
  destruct (decide (j = i)) as [->|].
  - apply list_lookup_insert_eq. lia.
  - apply list_lookup_insert_ne. lia.
Qed.

Lemma length_put {A} (l : list A) i x : length (put l i x) = length l.
Proof. apply length_insert. Qed.

Lemma out_Some adj u row : at_ adj u = Some row → out adj u = row.
Proof. unfold out. by intros ->. Qed.

Lemma out_range adj u v : v ∈ out adj u → 0 ≤ u < Z.of_nat (length adj).
Proof.
  unfold out. destruct (at_ adj u) eqn:E; simpl.
  - intros _. by eapply at_lt.
  - by intros ?%elem_of_nil.
Qed.

Lemma outs_nil adj : outs adj [] = [].
Proof. done. Qed.

Lemma outs_cons adj u us : outs adj (u :: us) = out adj u ++ outs adj us.
Proof. done. Qed.

Lemma elem_of_outs adj us v : v ∈ outs adj us ↔ ∃ u, u ∈ us ∧ v ∈ out adj u.
Proof. unfold outs. rewrite list_elem_of_bind. split; intros (u & ? & ?); eauto. Qed.

Lemma cnt_nil v : cnt v [] = 0%nat.
Proof. done. Qed.

Lemma cnt_cons v x l :
  cnt v (x :: l) = ((if decide (x = v) then 1 else 0) + cnt v l)%nat.
Proof. unfold cnt. rewrite filter_cons. by case_decide. Qed.

Lemma cnt_app v l1 l2 : cnt v (l1 ++ l2) = (cnt v l1 + cnt v l2)%nat.
Proof. unfold cnt. by rewrite filter_app, length_app. Qed.

Lemma cnt_zero v l : cnt v l = 0%nat ↔ v ∉ l.
Proof.
  induction l as [|x l IH]; [by split; [intros _ ?%elem_of_nil|]|].
  rewrite cnt_cons, not_elem_of_cons, <- IH. case_decide; split.
  - lia.
  - by intros [? _].
  - intros. split; [congruence|lia].
  - by intros [_ ->].
Qed.

Lemma cnt_pos v l : (0 < cnt v l)%nat ↔ v ∈ l.
Proof.
  destruct (decide (v ∈ l)) as [Hin|Hin].
  - split; [done|]. intros _. destruct (cnt v l) eqn:E; [|lia].
    by apply cnt_zero in E.
  - apply cnt_zero in Hin as Hz. split; [lia|done].
Qed.

Lemma tab_ext n ind f g :
  tab n ind f → (∀ v, 0 ≤ v < n → f v = g v) → tab n ind g.
Proof.
  intros [Hl Hf] Hfg. split; [done|]. intros v Hv. by rewrite Hf, Hfg.
Qed.

Lemma tab_put n ind f i x :
  tab n ind f → 0 ≤ i < n →
  tab n (put ind i x) (λ v, if decide (v = i) then x else f v).
Proof.
  intros [Hl Hf] Hi. split; [by rewrite length_put|]. intros v Hv.
  rewrite at_put by lia. case_decide; [done|]. by apply Hf.
Qed.

Lemma tab_make n x : 0 ≤ n → ∃ ind, make n x = Some ind ∧ tab n ind (λ _, x).
Proof.
  intros Hn. unfold make. rewrite decide_True by done. eexists; split; [done|].
  split; [by rewrite length_replicate|]. intros v Hv.
  apply at_Some. split; [lia|]. apply lookup_replicate_2. lia.
Qed.

(** ** The loop function unfolded *)

Lemma drain_nil adj ind topo :
  Kahn.drain adj (Kahn.State ind [] topo) = Some (Kahn.State ind [] topo).
Proof. by simp drain. Qed.

Lemma drain_cons adj ind top qu' topo :
  Kahn.drain adj (Kahn.State ind (top :: qu') topo)
  = Kahn.body adj ind top qu' topo ≫= Kahn.drain adj.
Proof.
  simp drain. destruct (inspect (Kahn.body adj ind top qu' topo)) as [[st'|] Hb];
    simp drain; by rewrite Hb.
Qed.

(** ** Kahn's algorithm on well-formed adjacency vectors *)

Section kahn.
Import Kahn.
Context (n : Z) (adj : list (list Z)).
Hypothesis n_nonneg : 0 ≤ n.
Hypothesis adj_length : length adj = Z.to_nat n.
Hypothesis adj_range : ∀ u v, v ∈ out adj u → 0 ≤ v < n.

Local Abbreviation in_range v := (0 ≤ v < n).

Lemma adj_row u : in_range u → at_ adj u = Some (out adj u).
Proof using adj_length.
  intros Hu. destruct (at_is_Some adj u) as [row Hrow]; [lia|].
  by rewrite (out_Some _ _ _ Hrow).
Qed.

Lemma out_in_range u v : v ∈ out adj u → in_range u.
Proof using adj_length. intros H%out_range. lia. Qed.

(** *** Counting the in-degrees *)

Lemma bump_tab row : ∀ ind ind' f,
  tab n ind f → (∀ v, v ∈ row → in_range v) →
  bump row ind = Some ind' →
  tab n ind' (λ v, f v + Z.of_nat (cnt v row)).
Proof.
  induction row as [|it row IH]; intros ind ind' f Hf Hrow Hb; simpl in Hb.
  - simplify_eq. eapply tab_ext; [done|]. intros; rewrite cnt_nil; lia.
  - assert (in_range it) as Hit by (apply Hrow; left).
    rewrite (proj2 Hf it Hit) in Hb. simpl in Hb.
    destruct (in_int (f it + 1)) as [d'|] eqn:Hd'; simpl in Hb; [|done].
    apply in_int_Some in Hd' as [-> _].
    eapply IH in Hb; [|by apply tab_put|intros v Hv; apply Hrow; by right].
    eapply tab_ext; [done|]. intros v Hv. simpl. rewrite cnt_cons.
    destruct (decide (v = it)) as [->|]; [rewrite decide_True by done|
      rewrite decide_False by done]; lia.
Qed.

(** The increments are defined as long as no counter passes [max_int]. *)
Lemma bump_defined row : ∀ ind f,
  tab n ind f → (∀ v, v ∈ row → in_range v) →
  (∀ v, in_range v → 0 ≤ f v ∧ f v + Z.of_nat (cnt v row) ≤ max_int) →
  is_Some (bump row ind).
Proof.
  induction row as [|it row IH]; intros ind f Hf Hrow Hb; simpl; [done|].
  assert (in_range it) as Hit by (apply Hrow; left).
  rewrite (proj2 Hf it Hit). simpl.
  assert (in_int (f it + 1) = Some (f it + 1)) as ->.
  { apply in_int_Some. split; [done|]. specialize (Hb it Hit).
    rewrite cnt_cons, decide_True in Hb by done. unfold min_int. lia. }
  simpl. eapply IH; [by apply tab_put|intros v Hv; apply Hrow; by right|].
  intros v Hv. specialize (Hb v Hv). rewrite cnt_cons in Hb. simpl.
  destruct (decide (v = it)) as [->|]; [rewrite decide_True in Hb by done|
    rewrite decide_False in Hb by done]; lia.
Qed.

Lemma bump_max row : ∀ ind ind',
  Forall (λ d, d ≤ max_int) ind → bump row ind = Some ind' →
  Forall (λ d, d ≤ max_int) ind'.
Proof.
  induction row as [|it row IH]; intros ind ind' Hmax Hb; simpl in Hb.
  - by simplify_eq.
  - destruct (at_ ind it) as [d|]; simpl in Hb; [|done].
    destruct (in_int (d + 1)) as [d'|] eqn:Hd'; simpl in Hb; [|done].
    apply in_int_Some in Hd' as [-> Hd']. eapply IH; [|done].
    apply Forall_insert; [done|lia].
Qed.

Lemma count_degrees_tab idx : ∀ ind ind' f,
  tab n ind f → (∀ i, i ∈ idx → in_range i) →
  count_degrees idx adj ind = Some ind' →
  tab n ind' (λ v, f v + Z.of_nat (cnt v (outs adj idx))).
Proof using adj_length adj_range.
  induction idx as [|i idx IH]; intros ind ind' f Hf Hidx Hc; simpl in Hc.
  - simplify_eq. eapply tab_ext; [done|].
    intros. rewrite outs_nil, cnt_nil. lia.
  - assert (in_range i) as Hi by (apply Hidx; left).
    rewrite (adj_row i Hi) in Hc. simpl in Hc.
    destruct (bump (out adj i) ind) as [ind1|] eqn:Hb; simpl in Hc; [|done].
    eapply bump_tab in Hb; [|done|intros v Hv; by eapply adj_range].
    eapply IH in Hc; [|done|intros j Hj; apply Hidx; by right].
    eapply tab_ext; [done|]. intros v Hv. simpl. rewrite outs_cons, cnt_app. lia.
Qed.

Lemma count_degrees_defined idx : ∀ ind f,
  tab n ind f → (∀ i, i ∈ idx → in_range i) →
  (∀ v, in_range v →
        0 ≤ f v ∧ f v + Z.of_nat (cnt v (outs adj idx)) ≤ max_int) →
  is_Some (count_degrees idx adj ind).
Proof using adj_length adj_range.
  induction idx as [|i idx IH]; intros ind f Hf Hidx Hb; simpl; [done|].
  assert (in_range i) as Hi by (apply Hidx; left).
  rewrite (adj_row i Hi). simpl.
  assert (∀ v, v ∈ out adj i → in_range v) as Hrow
    by (intros v Hv; by eapply adj_range).
  destruct (bump_defined (out adj i) ind f Hf Hrow) as [ind1 Hb1].
  { intros v Hv. specialize (Hb v Hv). rewrite outs_cons, cnt_app in Hb. lia. }
  rewrite Hb1. simpl. eapply IH.
  - by eapply bump_tab.
  - intros j Hj. apply Hidx. by right.
  - intros v Hv. specialize (Hb v Hv). rewrite outs_cons, cnt_app in Hb.
    simpl. lia.
Qed.

Lemma count_degrees_max idx : ∀ ind ind',
  Forall (λ d, d ≤ max_int) ind → count_degrees idx adj ind = Some ind' →
  Forall (λ d, d ≤ max_int) ind'.
Proof.
  induction idx as [|i idx IH]; intros ind ind' Hmax Hc; simpl in Hc.
  - by simplify_eq.
  - destruct (at_ adj i) as [row|]; simpl in Hc; [|done].
    destruct (bump row ind) as [ind1|] eqn:Hb; simpl in Hc; [|done].
    eapply IH; [|done]. by eapply bump_max.
Qed.

(** *** Seeding the queue *)

Lemma seed_spec idx : ∀ ind f qu,
  tab n ind f → (∀ i, i ∈ idx → in_range i) →
  seed idx ind qu = Some (qu ++ filter (λ v, f v = 0) idx).
Proof.
  induction idx as [|i idx IH]; intros ind f qu Hf Hidx; simpl.
  - by rewrite app_nil_r.
  - assert (in_range i) as Hi by (apply Hidx; left).
    rewrite (proj2 Hf i Hi). simpl. rewrite (IH ind f); [|done|].
    2: { intros j Hj. apply Hidx. by right. }
    rewrite filter_cons. case_decide; [|done]. by rewrite <- app_assoc.
Qed.

(** *** The items still to be output *)

Lemma elem_of_rest done u : u ∈ rest n done ↔ (u ∉ done) ∧ in_range u.
Proof. unfold rest. rewrite list_elem_of_filter, elem_of_seqZ. intuition lia. Qed.

Lemma rest_nil : rest n [] = seqZ 0 n.
Proof.
  unfold rest. induction (seqZ 0 n) as [|u us IH]; [done|].
  rewrite filter_cons, decide_True, IH; [done|]. apply not_elem_of_nil.
Qed.

Lemma remaining_zero done u v :
  remaining adj n done v = 0%nat → v ∈ out adj u → u ∈ done.
Proof using adj_length.
  unfold remaining. rewrite cnt_zero, elem_of_outs. intros Hno Hv.
  destruct (decide (u ∈ done)) as [|Hu]; [done|]. destruct Hno.
  exists u. split; [|done]. apply elem_of_rest. eauto using out_in_range.
Qed.

Lemma remaining_pos done v :
  remaining adj n done v ≠ 0%nat →
  ∃ u, in_range u ∧ (u ∉ done) ∧ v ∈ out adj u.
Proof.
  unfold remaining. intros H.
  assert (v ∈ outs adj (rest n done)) as (u & Hu & Hv)%elem_of_outs
    by (apply cnt_pos; lia).
  apply elem_of_rest in Hu as [? ?]. eauto.
Qed.

Lemma filter_snoc_count done top v us :
  top ∉ done → NoDup us →
  cnt v (outs adj (filter (λ u, u ∉ done) us))
  = (cnt v (outs adj (filter (λ u, u ∉ (done ++ [top])) us))
     + (if decide (top ∈ us) then cnt v (out adj top) else 0))%nat.
Proof.
  intros Htop. induction us as [|u us IH]; intros Hnd.
  - rewrite decide_False by apply not_elem_of_nil. done.
  - apply NoDup_cons in Hnd as [Hu Hnd]. specialize (IH Hnd).
    rewrite !filter_cons. destruct (decide (u = top)) as [->|Hne].
    + rewrite decide_True by done.
      rewrite (decide_False (P := top ∉ (done ++ [top]))).
      2: { intros H. apply H, elem_of_app. right. by left. }
      rewrite (decide_True (P := top ∈ top :: us)) by left.
      rewrite decide_False in IH by done.
      rewrite outs_cons, cnt_app. lia.
    + assert (top ∈ u :: us ↔ top ∈ us) as Hiff.
      { rewrite elem_of_cons. split; [intros [?|?]; [congruence|done]|by right]. }
      assert (u ∉ (done ++ [top]) ↔ u ∉ done) as Hiff'.
      { rewrite not_elem_of_app. split; [by intros [? _]|intros ?; split; [done|]].
        rewrite not_elem_of_cons. split; [done|apply not_elem_of_nil]. }
      destruct (decide (u ∉ done)) as [Hd|Hd].
      * rewrite (decide_True (P := u ∉ (done ++ [top]))) by tauto.
        rewrite !outs_cons, !cnt_app, IH.
        destruct (decide (top ∈ us)).
        -- rewrite decide_True by tauto. lia.
        -- rewrite decide_False by tauto. lia.
      * rewrite (decide_False (P := u ∉ (done ++ [top]))) by tauto.
        rewrite IH. destruct (decide (top ∈ us)).
        -- rewrite decide_True by tauto. lia.
        -- rewrite decide_False by tauto. lia.
Qed.

Lemma remaining_snoc done top v :
  in_range top → top ∉ done →
  remaining adj n done v
  = (remaining adj n (done ++ [top]) v + cnt v (out adj top))%nat.
Proof.
  intros Hr Hd. unfold remaining, rest.
  rewrite (filter_snoc_count done top v) by (done || apply NoDup_seqZ).
  rewrite decide_True; [done|]. apply elem_of_seqZ. lia.
Qed.

(** *** The invariant of the loops *)

(** [row] is the part of the current row that the [for] loop has still to
    visit ([[]] at the head of the [while] loop). *)
Record inv (row : list Z) (st : state) : Prop := Inv {
  inv_tab : tab n (indegre st)
              (λ v, Z.of_nat (remaining adj n (topo st) v + cnt v row));
  inv_row : ∀ v, v ∈ row → in_range v;
  inv_nodup : NoDup (topo st ++ qu st);
  inv_range : ∀ v, v ∈ topo st ++ qu st → in_range v;
  inv_zero : ∀ v, in_range v →
    v ∈ topo st ++ qu st ↔ (remaining adj n (topo st) v + cnt v row = 0)%nat;
  inv_order : ∀ l1 v l2, topo st ++ qu st = l1 ++ v :: l2 →
    ∀ u, v ∈ out adj u → u ∈ l1;
  inv_max : Forall (λ d, d ≤ max_int) (indegre st)
}.

Lemma snoc_split (l l1 l2 : list Z) x v :
  l ++ [x] = l1 ++ v :: l2 →
  (l2 = [] ∧ v = x ∧ l1 = l) ∨ (∃ l2', l2 = l2' ++ [x] ∧ l = l1 ++ v :: l2').
Proof.
  destruct l2 as [|y l2 _] using rev_ind.
  - intros H. apply app_inj_2 in H as [-> [= ->]]; [by left|done].
  - intros H. right. exists l2.
    rewrite app_comm_cons, app_assoc in H.
    apply app_inj_2 in H as [-> [= ->]]; done.
Qed.

Lemma relax_inv topo row1 : ∀ row2 ind qu,
  inv (row1 ++ row2) (State ind qu topo) →
  ∃ ind' qu', relax row1 ind qu = Some (ind', qu') ∧
              inv row2 (State ind' qu' topo).
Proof using adj_length.
  induction row1 as [|it row1 IH]; intros row2 ind qu Hinv; simpl.
  - eauto.
  - destruct Hinv as [Htab Hrow Hnd Hrg Hz Hord Hmax]; simpl in *.
    assert (in_range it) as Hit by (apply Hrow; left).
    set (r := (remaining adj n topo it + cnt it (row1 ++ row2))%nat).
    assert (at_ ind it = Some (Z.of_nat r + 1)) as Hat.
    { rewrite (proj2 Htab it Hit). f_equal. subst r.
      rewrite cnt_cons, decide_True by done. lia. }
    assert (in_int (Z.of_nat r + 1 - 1) = Some (Z.of_nat r)) as Hdec.
    { apply in_int_Some. split; [lia|].
      apply at_Some in Hat as [_ Hat].
      pose proof (Forall_lookup_1 _ _ _ _ Hmax Hat) as Hle. simpl in Hle.
      unfold min_int. lia. }
    rewrite Hat. simpl. rewrite Hdec. simpl.
    assert (it ∉ topo ++ qu) as Hfresh.
    { rewrite (Hz it Hit), cnt_cons, decide_True by done. lia. }
    apply IH. split; simpl.
    + eapply tab_ext; [by apply tab_put|]. intros v Hv. simpl.
      rewrite cnt_cons. subst r.
      destruct (decide (v = it)) as [->|Hne];
        [done|rewrite decide_False by done; f_equal; lia].
    + intros v Hv. apply Hrow. by right.
    + case_decide; [|done]. rewrite app_assoc. apply NoDup_app.
      split; [done|]. split; [|apply NoDup_singleton].
      intros v Hv [->|[]%elem_of_nil]%elem_of_cons. done.
    + intros v. case_decide; [|by apply Hrg]. rewrite app_assoc.
      intros [?|[->|[]%elem_of_nil]%elem_of_cons]%elem_of_app; auto.
    + intros v Hv. specialize (Hz v Hv). rewrite cnt_cons in Hz.
      destruct (decide (v = it)) as [->|Hne].
      * rewrite decide_True in Hz by done. fold r. case_decide.
        -- split; [lia|]. intros _. rewrite app_assoc, elem_of_app.
           right. by left.
        -- split; [done|lia].
      * rewrite decide_False in Hz by done. simpl in Hz. rewrite <- Hz.
        case_decide; [|done]. rewrite app_assoc, elem_of_app, elem_of_cons.
        split; [intros [?|[?|[]%elem_of_nil]]; done|auto].
    + case_decide as Hr; [|done]. intros l1 v l2 Heq u Hu.
      rewrite app_assoc in Heq.
      apply snoc_split in Heq as [(-> & -> & ->)|(l2' & -> & Heq)].
      * apply elem_of_app. left. apply (remaining_zero topo u it); [lia|done].
      * by eapply Hord.
    + apply Forall_insert; [done|].
      apply at_Some in Hat as [_ Hat].
      pose proof (Forall_lookup_1 _ _ _ _ Hmax Hat) as Hle. simpl in Hle. lia.
Qed.

Lemma pop_inv ind top qu topo :
  inv [] (State ind (top :: qu) topo) →
  inv (out adj top) (State ind qu (topo ++ [top])).
Proof using adj_length adj_range.
  intros [Htab Hrow Hnd Hrg Hz Hord Hmax]; simpl in *.
  assert (in_range top) as Htop.
  { apply Hrg, elem_of_app. right. by left. }
  assert (top ∉ topo) as Hfresh.
  { apply NoDup_app in Hnd as (_ & Hd & [Hq _]%NoDup_cons).
    intros Hin. apply (Hd _ Hin). by left. }
  assert (∀ v, (remaining adj n topo v + cnt v [])%nat
               = (remaining adj n (topo ++ [top]) v + cnt v (out adj top))%nat)
    as Hrem.
  { intros v. rewrite cnt_nil, (remaining_snoc topo top v) by done. lia. }
  split; simpl; rewrite <- ?app_assoc; simpl.
  - eapply tab_ext; [done|]. intros v _. simpl. by rewrite Hrem.
  - intros v Hv. by eapply adj_range.
  - done.
  - done.
  - intros v Hv. by rewrite <- Hrem, <- Hz.
  - done.
  - done.
Qed.

Lemma body_inv ind top qu topo :
  inv [] (State ind (top :: qu) topo) →
  ∃ st', body adj ind top qu topo = Some st' ∧ inv [] st'.
Proof using adj_length adj_range.
  intros Hinv. unfold body.
  assert (in_range top) as Htop.
  { apply (inv_range _ _ Hinv). simpl. apply elem_of_app. right. by left. }
  rewrite (adj_row top Htop). simpl.
  apply pop_inv in Hinv. rewrite <- (app_nil_r (out adj top)) in Hinv.
  apply relax_inv in Hinv as (ind' & qu' & -> & Hinv). simpl. eauto.
Qed.

Lemma drain_inv st :
  inv [] st → ∃ st', drain adj st = Some st' ∧ qu st' = [] ∧ inv [] st'.
Proof using adj_length adj_range.
  remember (measure st) as k eqn:Hk. revert st Hk.
  induction k as [k IH] using lt_wf_ind. intros [ind [|top q] t] -> Hinv.
  - rewrite drain_nil. eauto.
  - destruct (body_inv _ _ _ _ Hinv) as (st1 & Hb & Hinv1).
    rewrite drain_cons, Hb. simpl.
    eapply IH; [|done..]. by eapply body_measure.
Qed.

(** *** From the entry of the function to the exit of the loop *)

Lemma init_inv ind0 ind :
  tab n ind0 (λ _, 0) → Forall (λ d, d ≤ max_int) ind0 →
  count_degrees (seqZ 0 n) adj ind0 = Some ind →
  ∃ q, seed (seqZ 0 n) ind [] = Some q ∧ inv [] (State ind q []).
Proof using adj_length adj_range.
  intros H0 Hmax0 Hc.
  assert (∀ i, i ∈ seqZ 0 n → in_range i) as Hidx.
  { intros i. rewrite elem_of_seqZ. lia. }
  pose proof (count_degrees_max _ _ _ Hmax0 Hc) as Hmax.
  pose proof (count_degrees_tab _ _ _ _ H0 Hidx Hc) as Hind.
  assert (tab n ind (λ v, Z.of_nat (remaining adj n [] v + cnt v []))) as Hind'.
  { eapply tab_ext; [done|]. intros v _. unfold remaining.
    rewrite rest_nil, cnt_nil. simpl. lia. }
  pose proof (seed_spec _ _ _ [] Hind' Hidx) as Hs. simpl in Hs.
  eexists. split; [done|].
  assert (∀ v, v ∈ filter (λ v, Z.of_nat (remaining adj n [] v + cnt v []) = 0)
                   (seqZ 0 n)
               ↔ (remaining adj n [] v + cnt v [] = 0)%nat ∧ in_range v) as Hq.
  { intros v. rewrite list_elem_of_filter, elem_of_seqZ. lia. }
  split; simpl.
  - done.
  - by intros v ?%elem_of_nil.
  - apply NoDup_filter, NoDup_seqZ.
  - intros v. rewrite Hq. tauto.
  - intros v Hv. rewrite Hq. tauto.
  - intros l1 v l2 Heq u Hu.
    assert (remaining adj n [] v = 0%nat) as Hz.
    { assert (v ∈ l1 ++ v :: l2) as Hin by (apply elem_of_app; right; left).
      rewrite <- Heq, Hq in Hin. lia. }
    by apply (remaining_zero [] u v Hz), elem_of_nil in Hu.
  - done.
Qed.

Lemma make_zero ind0 :
  make n 0 = Some ind0 → tab n ind0 (λ _, 0) ∧ Forall (λ d, d ≤ max_int) ind0.
Proof.
  intros Hm. pose proof Hm as Hm'. unfold make in Hm'.
  case_decide as Hn; [|done]. simplify_eq.
  destruct (tab_make n 0 Hn) as (ind & Hind & Htab). rewrite Hm in Hind.
  simplify_eq. split; [done|]. apply Forall_replicate. by unfold max_int.
Qed.

(** The state at the entry of the loop satisfies the invariant, whenever
    the counting of the in-degrees was defined. *)
Lemma entry_inv s0 : entry n adj = Some s0 → inv [] s0.
Proof using adj_length adj_range.
  unfold entry. intros He.
  destruct (make n 0) as [ind0|] eqn:Hm; simpl in He; [|done].
  apply make_zero in Hm as [H0 Hmax0].
  destruct (count_degrees _ _ _) as [ind|] eqn:Hc; simpl in He; [|done].
  destruct (init_inv ind0 ind H0 Hmax0 Hc) as (q & Hs & Hinv).
  rewrite Hs in He. simpl in He. by simplify_eq.
Qed.

Lemma at_head_inv s0 st : inv [] s0 → at_head adj s0 st → inv [] st.
Proof using adj_length adj_range.
  intros H0. induction 1 as [|ind top q t st' _ IH Hb]; [done|].
  destruct (body_inv _ _ _ _ IH) as (st'' & Hb' & Hinv). congruence.
Qed.

Lemma in_loop_inv s0 st : inv [] s0 → in_loop adj s0 st → ∃ row, inv row st.
Proof using adj_length adj_range.
  intros H0 [st' Hh|ind top q t row1 row2 ind' q' Hh Hrow Hr].
  - exists []. by eapply at_head_inv.
  - exists row2. apply (at_head_inv _ _ H0), pop_inv in Hh.
    rewrite (out_Some _ _ _ Hrow) in Hh.
    apply relax_inv in Hh as (ind'' & q'' & Hr' & Hinv). congruence.
Qed.

Lemma inv_nonneg row st : inv row st → Forall (λ d, 0 ≤ d) (indegre st).
Proof.
  intros [[Hlen Htab] _ _ _ _ _ _]. apply Forall_lookup. intros i d Hi.
  assert (in_range (Z.of_nat i)) as Hr by (apply lookup_lt_Some in Hi; lia).
  specialize (Htab _ Hr). apply at_Some in Htab as [_ Htab].
  rewrite Nat2Z.id in Htab. simplify_eq. lia.
Qed.

Lemma inv_pushed row st v :
  inv row st → in_range v →
  v ∈ topo st ++ qu st ↔ at_ (indegre st) v = Some 0.
Proof.
  intros H Hv. rewrite (inv_zero _ _ H v Hv), (proj2 (inv_tab _ _ H) v Hv).
  split; [intros ->; done|]. intros [= ?]. lia.
Qed.

(** *** What the exit state says about the graph *)

Section exit.
Context (t : list Z).
Hypothesis exit_inv : ∃ ind, inv [] (State ind [] t).

Lemma exit_NoDup : NoDup t.
Proof using All.
  destruct exit_inv as [ind H]. pose proof (inv_nodup _ _ H) as Hnd.
  simpl in Hnd. by rewrite app_nil_r in Hnd.
Qed.

Lemma exit_range v : v ∈ t → in_range v.
Proof using All.
  destruct exit_inv as [ind H]. intros Hv.
  apply (inv_range _ _ H). simpl. by rewrite app_nil_r.
Qed.

Lemma exit_order l1 v l2 u : t = l1 ++ v :: l2 → edge adj u v → u ∈ l1.
Proof using All.
  destruct exit_inv as [ind H]. intros Heq Hu.
  apply (inv_order _ _ H l1 v l2); [|done]. simpl. by rewrite app_nil_r.
Qed.

Lemma exit_pred v :
  in_range v → v ∉ t → ∃ u, in_range u ∧ (u ∉ t) ∧ edge adj u v.
Proof using All.
  destruct exit_inv as [ind H]. intros Hv Hnot.
  apply remaining_pos. intros Hz.
  apply Hnot. pose proof (proj2 (inv_zero _ _ H v Hv)) as Hin.
  simpl in Hin. rewrite app_nil_r, cnt_nil in Hin. apply Hin. lia.
Qed.

Lemma exit_submseteq : t ⊆+ seqZ 0 n.
Proof using All.
  apply NoDup_submseteq; [apply exit_NoDup|].
  intros v Hv%exit_range. apply elem_of_seqZ. lia.
Qed.

Lemma exit_length : (length t ≤ Z.to_nat n)%nat.
Proof using All.
  rewrite <- (length_seqZ 0 n). apply submseteq_length, exit_submseteq.
Qed.

Lemma exit_full v : length t = Z.to_nat n → in_range v → v ∈ t.
Proof using All.
  intros Hlen Hv.
  assert (t ≡ₚ seqZ 0 n) as ->.
  { apply submseteq_length_Permutation; [apply exit_submseteq|].
    rewrite length_seqZ. lia. }
  apply elem_of_seqZ. lia.
Qed.

Lemma tc_edge_range u v : tc (edge adj) u v → in_range v.
Proof using All. induction 1; eauto. Qed.

Lemma exit_tc_before u v :
  tc (edge adj) u v → ∀ l1 l2, t = l1 ++ v :: l2 → u ∈ l1.
Proof using All.
  induction 1 as [u v Huv|u w v Huw Hwv IH]; intros l1 l2 Heq.
  - by eapply exit_order.
  - specialize (IH l1 l2 Heq).
    apply list_elem_of_split in IH as (a & b & ->).
    rewrite <- app_assoc in Heq. simpl in Heq.
    apply elem_of_app. left. by eapply exit_order.
Qed.

(** A full output excludes a cycle. *)
Lemma exit_sound v : length t = Z.to_nat n → ¬ tc (edge adj) v v.
Proof using All.
  intros Hlen Hcyc.
  assert (v ∈ t) as (l1 & l2 & Heq)%list_elem_of_split
    by eauto using exit_full, tc_edge_range.
  pose proof (exit_tc_before v v Hcyc l1 l2 Heq) as Hin.
  pose proof exit_NoDup as Hnd. rewrite Heq in Hnd.
  apply NoDup_app in Hnd as (_ & Hd & _). apply (Hd v Hin). left.
Qed.

(** Behind an item that was never output there are as many distinct
    items as one likes, none of them output. *)
Lemma exit_chain (k : nat) : ∀ v,
  in_range v → v ∉ t → (∀ w, ¬ tc (edge adj) w w) →
  ∃ l, length l = k ∧ NoDup l ∧
       ∀ w, w ∈ l → in_range w ∧ (w ∉ t) ∧ tc (edge adj) w v.
Proof using All.
  induction k as [|k IH]; intros v Hv Hnot Hacyc.
  - exists []. split; [done|]. split; [constructor|].
    by intros w ?%elem_of_nil.
  - destruct (exit_pred v Hv Hnot) as (u & Hu & Hunot & Huv).
    destruct (IH u Hu Hunot Hacyc) as (l & Hlen & Hnd & Hl).
    exists (u :: l). split; [simpl; lia|]. split.
    + apply NoDup_cons. split; [|done]. intros Hin.
      apply (Hacyc u). by apply Hl.
    + intros w [->|Hw]%elem_of_cons.
      * split; [done|]. split; [done|]. by apply tc_once.
      * destruct (Hl w Hw) as (? & ? & ?). split; [done|]. split; [done|].
        by eapply tc_r.
Qed.

(** Without a cycle the output is full. *)
Lemma exit_complete :
  (∀ w, ¬ tc (edge adj) w w) → length t = Z.to_nat n.
Proof using All.
  intros Hacyc. destruct (decide (length t = Z.to_nat n)) as [|Hne]; [done|].
  exfalso. pose proof exit_length as Hle.
  assert (∃ v, in_range v ∧ v ∉ t) as (v & Hv & Hnot).
  { destruct (decide (Forall (λ v, v ∈ t) (seqZ 0 n))) as [Hall|Hex].
    - assert (seqZ 0 n ⊆+ t) as Hsub.
      { apply NoDup_submseteq; [apply NoDup_seqZ|].
        by apply Forall_forall. }
      apply submseteq_length in Hsub. rewrite length_seqZ in Hsub. lia.
    - apply not_Forall_Exists in Hex; [|apply _].
      apply Exists_exists in Hex as (v & Hv%elem_of_seqZ & Hnot).
      exists v. split; [lia|done]. }
  destruct (exit_chain (S (Z.to_nat n)) v Hv Hnot Hacyc) as (l & Hlen & Hnd & Hl).
  assert (l ⊆+ seqZ 0 n) as Hsub.
  { apply NoDup_submseteq; [done|]. intros w (Hw & _)%Hl.
    apply elem_of_seqZ. lia. }
  apply submseteq_length in Hsub. rewrite length_seqZ in Hsub. lia.
Qed.

(** In a full output every edge points forward. *)
Lemma exit_before u v :
  length t = Z.to_nat n → edge adj u v → before u v t.
Proof using All.
  intros Hlen Huv.
  assert (v ∈ t) as (l1 & l2 & Heq)%list_elem_of_split.
  { apply exit_full; [done|]. by eapply adj_range. }
  pose proof (exit_order l1 v l2 u Heq Huv) as (a & b & ->)%list_elem_of_split.
  exists a, b, l2. by rewrite Heq, <- app_assoc.
Qed.
End exit.

(** The loops of a run that ends leave a state that satisfies the
    invariant. *)
Lemma run_partial t :
  run n adj = Some t → ∃ st, topo st = t ∧ qu st = [] ∧ inv [] st.
Proof using adj_length adj_range.
  unfold run. intros Hr.
  destruct (make n 0) as [ind0|] eqn:Hm; simpl in Hr; [|done].
  destruct (count_degrees _ _ _) as [ind|] eqn:Hc; simpl in Hr; [|done].
  destruct (seed _ _ _) as [q|] eqn:Hs; simpl in Hr; [|done].
  destruct (drain _ _) as [st|] eqn:Hd; simpl in Hr; [|done]. simplify_eq.
  assert (entry n adj = Some (State ind q [])) as He.
  { unfold entry. rewrite Hm. simpl. rewrite Hc. simpl. by rewrite Hs. }
  apply entry_inv in He. destruct (drain_inv _ He) as (st' & Hd' & Hq & Hinv).
  rewrite Hd in Hd'. simplify_eq. eauto.
Qed.

(** No item has more than [max_int] pairs that count for it. *)
Hypothesis adj_small :
  ∀ v, in_range v → Z.of_nat (cnt v (outs adj (seqZ 0 n))) ≤ max_int.

Lemma entry_defined : is_Some (entry n adj).
Proof using n_nonneg adj_length adj_range adj_small.
  unfold entry. destruct (tab_make n 0 n_nonneg) as (ind0 & Hm & H0).
  rewrite Hm. simpl. pose proof (make_zero ind0 Hm) as [_ Hmax0].
  assert (∀ i, i ∈ seqZ 0 n → in_range i) as Hidx.
  { intros i. rewrite elem_of_seqZ. lia. }
  destruct (count_degrees_defined (seqZ 0 n) ind0 _ H0 Hidx) as [ind Hc].
  { intros v Hv. specialize (adj_small v Hv). simpl. lia. }
  rewrite Hc. simpl.
  destruct (init_inv ind0 ind H0 Hmax0 Hc) as (q & -> & _). done.
Qed.

Lemma run_inv :
  ∃ st, run n adj = Some (topo st) ∧ qu st = [] ∧ inv [] st.
Proof using n_nonneg adj_length adj_range adj_small.
  destruct entry_defined as [s0 Hs0]. pose proof (entry_inv s0 Hs0) as Hinv.
  destruct (drain_inv _ Hinv) as (st & Hd & Hq & Hst).
  exists st. split; [|done]. unfold run. unfold entry in Hs0.
  destruct (make n 0) as [ind0|]; simpl in *; [|done].
  destruct (count_degrees _ _ _) as [ind|]; simpl in *; [|done].
  destruct (seed _ _ _) as [q|]; simpl in *; [|done].
  simplify_eq. by rewrite Hd.
Qed.

End kahn.

(** ** The adjacency vectors *)

Lemma out_put adj u row u' :
  0 ≤ u < Z.of_nat (length adj) →
  out (put adj u row) u' = if decide (u' = u) then row else out adj u'.
Proof.
  intros Hu. unfold out. destruct (decide (0 ≤ u')) as [Hu'|Hu'].
  - rewrite at_put by done. by case_decide.
  - rewrite decide_False by lia. unfold at_. by rewrite !decide_False by done.
Qed.

Lemma add_edges_spec n src dst pre : ∀ adj0,
  length adj0 = Z.to_nat n →
  Forall (λ it, ∃ u v, at_ it src = Some u ∧ at_ it dst = Some v ∧
                       0 ≤ u < n ∧ 0 ≤ v < n) pre →
  ∃ adj, Kahn.add_edges src dst pre adj0 = Some adj ∧
         length adj = Z.to_nat n ∧
         ∀ u v, v ∈ out adj u ↔
                v ∈ out adj0 u ∨
                Exists (λ it, at_ it src = Some u ∧ at_ it dst = Some v) pre.
Proof.
  induction pre as [|it pre IH]; intros adj0 Hlen Hpre; simpl.
  - exists adj0. split; [done|]. split; [done|]. intros u v.
    rewrite Exists_nil. tauto.
  - apply Forall_cons in Hpre as [(u & v & Hu & Hv & Hur & Hvr) Hpre].
    rewrite Hu, Hv. simpl.
    destruct (at_is_Some adj0 u) as [row Hrow]; [lia|]. rewrite Hrow. simpl.
    destruct (IH (put adj0 u (row ++ [v]))) as (adj & -> & Hl & Hadj);
      [by rewrite length_put|done|].
    exists adj. split; [done|]. split; [done|]. intros u' v'.
    rewrite Hadj, out_put, Exists_cons by lia. rewrite Hu, Hv.
    apply out_Some in Hrow. destruct (decide (u' = u)) as [->|Hne].
    + rewrite elem_of_app, elem_of_cons, Hrow. split.
      * intros [[?|[->|[]%elem_of_nil]]|?]; auto.
      * intros [?|[[_ [= ->]]|?]]; auto.
    + split; [intros [?|?]; auto|]. intros [?|[[[= ?] _]|?]]; auto. done.
Qed.

Lemma at_pair_0 (a b : Z) : at_ [a; b] 0 = Some a.
Proof. reflexivity. Qed.

Lemma at_pair_1 (a b : Z) : at_ [a; b] 1 = Some b.
Proof. reflexivity. Qed.

Lemma valid_pair n it :
  length it = 2%nat ∧ Forall (λ x, 0 ≤ x < n) it →
  ∃ a b, it = [a; b] ∧ 0 ≤ a < n ∧ 0 ≤ b < n.
Proof.
  intros [Hlen Hall]. destruct it as [|a [|b [|]]]; try done.
  apply Forall_cons in Hall as [? [? _]%Forall_cons]. eauto.
Qed.

Lemma make_rows n : 0 ≤ n →
  ∃ adj0, make n [] = Some adj0 ∧ length adj0 = Z.to_nat n ∧
          ∀ u, out adj0 u = @nil Z.
Proof.
  intros Hn. unfold make. rewrite decide_True by done. eexists. split; [done|].
  split; [by rewrite length_replicate|]. intros u. unfold out, at_.
  case_decide; [|done]. destruct (replicate _ _ !! _) eqn:E; [|done].
  by apply lookup_replicate in E as [-> _].
Qed.

(** [canFinish] stores the pair [(a, b)] as the edge [a → b]. *)
Lemma canFinish_adj_spec n pre :
  valid_input n pre →
  ∃ adj, canFinish_adj n pre = Some adj ∧ length adj = Z.to_nat n ∧
         ∀ a b, edge adj a b ↔ depends pre a b.
Proof.
  intros [Hn Hpre]. unfold canFinish_adj.
  destruct (make_rows n Hn) as (adj0 & -> & Hl0 & Hout0). simpl.
  destruct (add_edges_spec n 0 1 pre adj0 Hl0) as (adj & -> & Hl & Hadj).
  { eapply Forall_impl; [done|]. intros it (a & b & -> & ? & ?)%valid_pair.
    by exists a, b. }
  exists adj. split; [done|]. split; [done|]. intros a b.
  unfold edge, depends. rewrite Hadj, Hout0, Exists_exists. split.
  - intros [[]%elem_of_nil|(it & Hit & Ha & Hb)].
    rewrite Forall_forall in Hpre.
    destruct (valid_pair n it (Hpre it Hit)) as (a' & b' & -> & _).
    rewrite at_pair_0 in *. rewrite at_pair_1 in *. by simplify_eq.
  - intros Hin. right. by exists [a; b].
Qed.

(** [findOrder] stores the pair [(a, b)] as the edge [b → a]. *)
Lemma findOrder_adj_spec n pre :
  valid_input n pre →
  ∃ adj, findOrder_adj n pre = Some adj ∧ length adj = Z.to_nat n ∧
         ∀ a b, edge adj b a ↔ depends pre a b.
Proof.
  intros [Hn Hpre]. unfold findOrder_adj.
  destruct (make_rows n Hn) as (adj0 & -> & Hl0 & Hout0). simpl.
  destruct (add_edges_spec n 1 0 pre adj0 Hl0) as (adj & -> & Hl & Hadj).
  { eapply Forall_impl; [done|]. intros it (a & b & -> & ? & ?)%valid_pair.
    by exists b, a. }
  exists adj. split; [done|]. split; [done|]. intros a b.
  unfold edge, depends. rewrite Hadj, Hout0, Exists_exists. split.
  - intros [[]%elem_of_nil|(it & Hit & Ha & Hb)].
    rewrite Forall_forall in Hpre.
    destruct (valid_pair n it (Hpre it Hit)) as (a' & b' & -> & _).
    rewrite at_pair_0 in *. rewrite at_pair_1 in *. by simplify_eq.
  - intros Hin. right. by exists [a; b].
Qed.

(** ** The size of the adjacency vectors *)

Lemma outs_concat_from adj : ∀ pfx,
  outs (pfx ++ adj) (seqZ (Z.of_nat (length pfx)) (Z.of_nat (length adj)))
  = concat adj.
Proof.
  induction adj as [|row adj IH]; intros pfx; [done|].
  rewrite seqZ_cons by (simpl; lia). rewrite outs_cons. simpl concat.
  f_equal.
  - unfold out, at_. rewrite decide_True by lia.
    by rewrite Nat2Z.id, list_lookup_middle.
  - specialize (IH (pfx ++ [row])). rewrite <- app_assoc in IH. simpl in IH.
    rewrite <- IH. f_equal. rewrite length_app. simpl. f_equal; lia.
Qed.

Lemma outs_concat n adj :
  0 ≤ n → length adj = Z.to_nat n → outs adj (seqZ 0 n) = concat adj.
Proof.
  intros Hn Hlen. rewrite <- (outs_concat_from adj []). simpl.
  f_equal. f_equal. lia.
Qed.

Lemma concat_put (adj : list (list Z)) u row v :
  at_ adj u = Some row →
  length (concat (put adj u (row ++ [v]))) = S (length (concat adj)).
Proof.
  intros [_ Hrow]%at_Some. unfold put.
  rewrite insert_take_drop by (by eapply lookup_lt_Some).
  rewrite <- (take_drop_middle _ _ _ Hrow) at 3.
  rewrite !concat_app, !concat_cons, !length_app. simpl. lia.
Qed.

Lemma add_edges_size src dst pre : ∀ adj0 adj,
  Kahn.add_edges src dst pre adj0 = Some adj →
  length (concat adj) = (length (concat adj0) + length pre)%nat.
Proof.
  induction pre as [|it pre IH]; intros adj0 adj Hadd; simpl in Hadd.
  - simplify_eq. simpl. lia.
  - destruct (at_ it src) as [u|]; simpl in Hadd; [|done].
    destruct (at_ it dst) as [v|]; simpl in Hadd; [|done].
    destruct (at_ adj0 u) as [row|] eqn:Hrow; simpl in Hadd; [|done].
    apply IH in Hadd. rewrite (concat_put _ _ _ _ Hrow) in Hadd. simpl. lia.
Qed.

Lemma cnt_le_length v l : (cnt v l ≤ length l)%nat.
Proof. unfold cnt. apply length_filter. Qed.

Lemma concat_replicate_nil (k : nat) : concat (replicate k (@nil Z)) = [].
Proof. induction k as [|k IH]; [done|]. simpl. done. Qed.

(** With at most [max_int] pairs no counter can pass [max_int]. *)
Lemma add_edges_small n src dst pre adj0 adj v :
  make n [] = Some adj0 → Kahn.add_edges src dst pre adj0 = Some adj →
  length adj = Z.to_nat n → Z.of_nat (length pre) ≤ max_int →
  Z.of_nat (cnt v (outs adj (seqZ 0 n))) ≤ max_int.
Proof.
  unfold make. case_decide as Hn; [|done]. intros [= <-] Hadd Hlen Hpre.
  apply add_edges_size in Hadd.
  rewrite concat_replicate_nil in Hadd. simpl in Hadd.
  rewrite outs_concat by done. pose proof (cnt_le_length v (concat adj)). lia.
Qed.

(** ** The two resolvers on well-formed input *)

Lemma tc_mono (R R' : relation Z) x y :
  (∀ a b, R a b → R' a b) → tc R x y → tc R' x y.
Proof.
  intros H. induction 1 as [x y Hxy|x y z Hxy _ IH].
  - by apply tc_once, H.
  - eapply tc_l; [|done]. by apply H.
Qed.

Lemma tc_iff (R R' : relation Z) x y :
  (∀ a b, R a b ↔ R' a b) → tc R x y ↔ tc R' x y.
Proof. intros H. split; apply tc_mono; intros a b; apply H. Qed.

Lemma tc_flip (R R' : relation Z) x y :
  (∀ a b, R a b → R' b a) → tc R x y → tc R' y x.
Proof.
  intros H. induction 1 as [x y Hxy|x y z Hxy _ IH].
  - by apply tc_once, H.
  - eapply tc_r; [done|]. by apply H.
Qed.

Lemma canFinish_topo_run n pre :
  canFinish_topo n pre = canFinish_adj n pre ≫= run n.
Proof.
  unfold canFinish_topo, canFinish_adj. destruct (make n []); [simpl|done].
  by destruct (Kahn.add_edges _ _ _ _).
Qed.

Lemma findOrder_topo_run n pre :
  findOrder_topo n pre = findOrder_adj n pre ≫= run n.
Proof.
  unfold findOrder_topo, findOrder_adj. destruct (make n []); [simpl|done].
  by destruct (Kahn.add_edges _ _ _ _).
Qed.

(** What the loop of either function leaves in [topo] when it ends, the
    edges being those of [adj]. *)
Lemma run_sound n adj t :
  0 ≤ n → length adj = Z.to_nat n → (∀ u v, edge adj u v → 0 ≤ v < n) →
  run n adj = Some t →
  NoDup t ∧ (∀ v, v ∈ t → 0 ≤ v < n) ∧
  (length t = Z.to_nat n ↔ ∀ w, ¬ tc (edge adj) w w) ∧
  (length t = Z.to_nat n → ∀ u v, edge adj u v → before u v t).
Proof.
  intros Hn Hlen Hrange Hrun.
  destruct (run_partial n adj Hlen Hrange t Hrun) as ([ind q t'] & Ht & Hq & Hinv).
  simpl in *. subst q t'.
  assert (∃ ind, inv n adj [] (Kahn.State ind [] t)) as Hexit by eauto.
  split; [by eapply exit_NoDup|]. split; [by eapply exit_range|].
  split; [split|].
  - intros Hfull w. by eapply exit_sound.
  - by eapply exit_complete.
  - intros Hfull u v. by eapply exit_before.
Qed.

(** With no counter passing [max_int] the loops end, and leave this. *)
Lemma run_spec n adj :
  0 ≤ n → length adj = Z.to_nat n → (∀ u v, edge adj u v → 0 ≤ v < n) →
  (∀ v, 0 ≤ v < n → Z.of_nat (cnt v (outs adj (seqZ 0 n))) ≤ max_int) →
  ∃ t, run n adj = Some t ∧
       NoDup t ∧ (∀ v, v ∈ t → 0 ≤ v < n) ∧
       (length t = Z.to_nat n ↔ ∀ w, ¬ tc (edge adj) w w) ∧
       (length t = Z.to_nat n → ∀ u v, edge adj u v → before u v t).
Proof.
  intros Hn Hlen Hrange Hsmall.
  destruct (run_inv n adj Hn Hlen Hrange Hsmall) as (st & Hrun & _).
  exists (Kahn.topo st). split; [done|]. by apply run_sound.
Qed.

Lemma canFinish_topo_spec n pre :
  valid_input n pre → Z.of_nat (length pre) ≤ max_int →
  ∃ t, canFinish_topo n pre = Some t ∧
       NoDup t ∧ (∀ v, v ∈ t → 0 ≤ v < n) ∧
       (length t = Z.to_nat n ↔ acyclic pre) ∧
       (length t = Z.to_nat n → ∀ a b, depends pre a b → before a b t).
Proof.
  intros Hvalid Hsmall.
  destruct (canFinish_adj_spec n pre Hvalid) as (adj & Hadj & Hlen & Hedge).
  destruct Hvalid as [Hn Hpre].
  destruct (run_spec n adj Hn Hlen) as (t & Hrun & Hnd & Hrg & Hfull & Hord).
  { intros u v [_ Hit]%Hedge%(proj1 (Forall_forall _ _) Hpre).
    by apply Forall_cons in Hit as [_ [? _]%Forall_cons]. }
  { intros v _. unfold canFinish_adj in Hadj.
    destruct (make n []) as [adj0|] eqn:Hm; simpl in Hadj; [|done].
    by eapply add_edges_small. }
  exists t. rewrite canFinish_topo_run, Hadj. split; [done|].
  split; [done|]. split; [done|]. split.
  - rewrite Hfull. unfold acyclic. split; intros H w Hw; apply (H w).
    + by apply (tc_iff (edge adj) (depends pre)).
    + by apply (tc_iff (edge adj) (depends pre)).
  - intros Hl a b Hab. apply Hord; [done|]. by apply Hedge.
Qed.

Lemma findOrder_topo_spec n pre :
  valid_input n pre → Z.of_nat (length pre) ≤ max_int →
  ∃ t, findOrder_topo n pre = Some t ∧
       NoDup t ∧ (∀ v, v ∈ t → 0 ≤ v < n) ∧
       (length t = Z.to_nat n ↔ acyclic pre) ∧
       (length t = Z.to_nat n → ∀ a b, depends pre a b → before b a t).
Proof.
  intros Hvalid Hsmall.
  destruct (findOrder_adj_spec n pre Hvalid) as (adj & Hadj & Hlen & Hedge).
  destruct Hvalid as [Hn Hpre].
  destruct (run_spec n adj Hn Hlen) as (t & Hrun & Hnd & Hrg & Hfull & Hord).
  { intros u v [_ Hit]%Hedge%(proj1 (Forall_forall _ _) Hpre).
    by apply Forall_cons in Hit as [? _]. }
  { intros v _. unfold findOrder_adj in Hadj.
    destruct (make n []) as [adj0|] eqn:Hm; simpl in Hadj; [|done].
    by eapply add_edges_small. }
  exists t. rewrite findOrder_topo_run, Hadj. split; [done|].
  split; [done|]. split; [done|]. split.
  - rewrite Hfull. unfold acyclic. split; intros H w Hw; apply (H w).
    + eapply tc_flip; [|done]. intros a b. apply Hedge.
    + eapply tc_flip; [|done]. intros a b. apply Hedge.
  - intros Hl a b Hab. apply Hord; [done|]. by apply Hedge.
Qed.

(** ** No prerequisite at all *)

Lemma drain_no_edges adj q : ∀ ind t,
  (∀ u, u ∈ q → at_ adj u = Some []) →
  Kahn.drain adj (Kahn.State ind q t) = Some (Kahn.State ind [] (t ++ q)).
Proof.
  induction q as [|top q IH]; intros ind t Hq.
  - by rewrite drain_nil, app_nil_r.
  - rewrite drain_cons. unfold Kahn.body.
    rewrite (Hq top) by left. simpl. rewrite IH, <- app_assoc; [done|].
    intros u Hu. apply Hq. by right.
Qed.

Lemma outs_no_edges adj us : (∀ u, out adj u = []) → outs adj us = [].
Proof.
  intros Hout. induction us as [|u us IH]; [done|].
  rewrite outs_cons, Hout, IH. done.
Qed.

Lemma run_no_edges n adj :
  0 ≤ n → length adj = Z.to_nat n → (∀ u, out adj u = []) →
  run n adj = Some (seqZ 0 n).
Proof.
  intros Hn Hlen Hout. unfold run.
  destruct (tab_make n 0 Hn) as (ind0 & -> & H0). simpl.
  assert (∀ i, i ∈ seqZ 0 n → 0 ≤ i < n) as Hidx.
  { intros i. rewrite elem_of_seqZ. lia. }
  assert (∀ u v, v ∈ out adj u → 0 ≤ v < n) as Hrange.
  { intros u v. rewrite Hout. by intros ?%elem_of_nil. }
  destruct (count_degrees_defined n adj Hlen Hrange _ _ _ H0 Hidx)
    as [ind Hc].
  { intros v _. rewrite (outs_no_edges adj _ Hout), cnt_nil.
    by unfold max_int. }
  pose proof (count_degrees_tab n adj Hlen Hrange _ _ _ _ H0 Hidx Hc) as Hind.
  rewrite Hc. simpl. rewrite (seed_spec n _ _ _ [] Hind Hidx). simpl.
  rewrite (outs_no_edges adj _ Hout).
  assert (∀ l : list Z, filter (λ v, 0 + Z.of_nat (cnt v []) = 0) l = l) as ->.
  { induction l as [|x l IH]; [done|]. by rewrite filter_cons, decide_True, IH. }
  rewrite drain_no_edges; [done|]. intros u Hu%Hidx.
  rewrite (adj_row n adj Hlen u Hu). by rewrite Hout.
Qed.

(** ** What one iteration does to the counters *)

Lemma relax_counts row : ∀ ind q ind' q' v d,
  Kahn.relax row ind q = Some (ind', q') → at_ ind v = Some d →
  at_ ind' v = Some (d - Z.of_nat (cnt v row)).
Proof.
  induction row as [|it row IH]; intros ind q ind' q' v d Hr Hv; simpl in Hr.
  - simplify_eq. rewrite cnt_nil, Hv. f_equal. lia.
  - destruct (at_ ind it) as [e|] eqn:He; simpl in Hr; [|done].
    destruct (in_int (e - 1)) as [e'|] eqn:He'; simpl in Hr; [|done].
    apply in_int_Some in He' as [-> _].
    apply (IH _ _ _ _ v (if decide (v = it) then e - 1 else d)) in Hr.
    + rewrite Hr, cnt_cons. f_equal.
      destruct (decide (v = it)) as [->|]; [rewrite decide_True by done|
        rewrite decide_False by done]; [|lia]. simplify_eq. lia.
    + rewrite at_put; [|by eapply at_lt|apply at_lt in Hv; lia].
      by destruct (decide (v = it)).
Qed.

Lemma body_counts adj ind top q t st' v d :
  Kahn.body adj ind top q t = Some st' → at_ ind v = Some d →
  at_ (Kahn.indegre st') v = Some (d - Z.of_nat (cnt v (out adj top))).
Proof.
  unfold Kahn.body. intros Hb Hv.
  destruct (at_ adj top) as [row|] eqn:Hrow; simpl in Hb; [|done].
  destruct (Kahn.relax row ind q) as [[ind' q']|] eqn:Hr; simpl in Hb; [|done].
  simplify_eq. simpl. rewrite (out_Some _ _ _ Hrow). by eapply relax_counts.
Qed.

(** ** The loop function and the states of the loop *)

(** The inner loop only appends to the queue, so an iteration only appends
    to [topo] followed by the queue: this sequence is the history of the
    pushes. *)
Lemma relax_appends row : ∀ ind q ind' q',
  Kahn.relax row ind q = Some (ind', q') → ∃ new, q' = q ++ new.
Proof.
  induction row as [|it row IH]; intros ind q ind' q' Hr; simpl in Hr.
  - simplify_eq. exists []. by rewrite app_nil_r.
  - destruct (at_ ind it) as [d|]; simpl in Hr; [|done].
    destruct (in_int (d - 1)) as [d'|]; simpl in Hr; [|done].
    apply IH in Hr as [new ->]. case_decide; [|by exists new].
    exists (it :: new). by rewrite <- app_assoc.
Qed.

Lemma body_appends adj ind top q t st' :
  Kahn.body adj ind top q t = Some st' →
  ∃ new, Kahn.topo st' ++ Kahn.qu st' = (t ++ top :: q) ++ new.
Proof.
  unfold Kahn.body. intros Hb.
  destruct (at_ adj top) as [row|]; simpl in Hb; [|done].
  destruct (Kahn.relax row ind q) as [[ind' q']|] eqn:Hr; simpl in Hb; [|done].
  simplify_eq. simpl. apply relax_appends in Hr as [new ->]. exists new.
  by rewrite <- !app_assoc.
Qed.

Lemma at_head_left adj ind top q t s1 s' :
  Kahn.body adj ind top q t = Some s1 → at_head adj s1 s' →
  at_head adj (Kahn.State ind (top :: q) t) s'.
Proof.
  intros Hb. induction 1 as [|ind' top' q' t' st' _ IH Hb'].
  - eapply head_next; [apply head_entry|done].
  - by eapply head_next.
Qed.

Lemma drain_at_head adj st st' :
  Kahn.drain adj st = Some st' → at_head adj st st' ∧ Kahn.qu st' = [].
Proof.
  remember (Kahn.measure st) as k eqn:Hk. revert st Hk.
  induction k as [k IH] using lt_wf_ind. intros [ind [|top q] t] -> Hd.
  - rewrite drain_nil in Hd. simplify_eq. split; [apply head_entry|done].
  - rewrite drain_cons in Hd.
    destruct (Kahn.body adj ind top q t) as [s1|] eqn:Hb; simpl in Hd; [|done].
    destruct (IH _ (Kahn.body_measure _ _ _ _ _ _ Hb) s1 eq_refl Hd) as [Hh Hq].
    split; [|done]. by eapply at_head_left.
Qed.

(** * The properties of the specification *)

Lemma diamond_valid : valid_input 4 diamond.
Proof. apply (bool_decide_unpack _). by vm_compute. Qed.

Lemma diamond_small : Z.of_nat (length diamond) ≤ max_int.
Proof. apply (bool_decide_unpack _). by vm_compute. Qed.

Lemma diamond_acyclic : acyclic diamond.
Proof.
  destruct (findOrder_topo_spec 4 diamond diamond_valid diamond_small)
    as (t & Ht & _ & _ & Hfull & _).
  apply Hfull. vm_compute in Ht. by simplify_eq.
Qed.

(** A counter at [max_int] cannot be incremented: the run has no defined
    result. *)
Example bump_overflow : Kahn.bump [0] [max_int] = None.
Proof. by vm_compute. Qed.

(** The two fixed orders of the specification: the chain gives [0,1,2,3],
    and so does the diamond under the tie-break of the queue. *)
Example findOrder_chain : findOrder 4 chain = Some [0; 1; 2; 3].
Proof. by vm_compute. Qed.

Example findOrder_diamond : findOrder 4 diamond = Some [0; 1; 2; 3].
Proof. by vm_compute. Qed.

Lemma length_bounded (t : list Z) n :
  NoDup t → (∀ v, v ∈ t → 0 ≤ v < n) → (length t ≤ Z.to_nat n)%nat.
Proof.
  intros Hnd Hrg. rewrite <- (length_seqZ 0 n).
  apply submseteq_length, NoDup_submseteq; [done|].
  intros v Hv%Hrg. apply elem_of_seqZ. lia.
Qed.

Lemma length_full (t : list Z) n :
  0 ≤ n → length t = Z.to_nat n ↔ Z.of_nat (length t) = n.
Proof. lia. Qed.

(** C1. For every [n ≥ 0] and every list of pairs of items of [[0, n)]
    (at most [max_int] pairs, so that no [int] counter overflows):
    [canFinish] returns [true] exactly when the prerequisite graph has no
    cycle, and [findOrder] returns a sequence of length [n] when the graph
    has no cycle and the empty sequence otherwise. *)
Theorem kahn_decides_acyclicity n pre :
  valid_input n pre → Z.of_nat (length pre) ≤ max_int →
  (∃ b, canFinish n pre = Some b ∧ (b = true ↔ acyclic pre)) ∧
  (∃ r, findOrder n pre = Some r ∧
        (acyclic pre → Z.of_nat (length r) = n) ∧
        (¬ acyclic pre → r = [])).
Proof.
  intros Hvalid Hsmall. pose proof (proj1 Hvalid) as Hn. split.
  - destruct (canFinish_topo_spec n pre Hvalid Hsmall)
      as (t & Ht & _ & _ & Hfull & _).
    unfold canFinish. rewrite Ht. simpl. eexists. split; [done|].
    by rewrite bool_decide_eq_true, <- Hfull, length_full.
  - destruct (findOrder_topo_spec n pre Hvalid Hsmall)
      as (t & Ht & _ & _ & Hfull & _).
    unfold findOrder. rewrite Ht. simpl. eexists. split; [done|].
    rewrite <- Hfull, length_full by done.
    case_decide; split; intros; done.
Qed.

Lemma kahn_decides_acyclicity_witness :
  (∃ b, canFinish 4 diamond = Some b ∧ (b = true ↔ acyclic diamond)) ∧
  (∃ r, findOrder 4 diamond = Some r ∧
        (acyclic diamond → Z.of_nat (length r) = 4) ∧
        (¬ acyclic diamond → r = [])).
Proof.
  apply (kahn_decides_acyclicity 4 diamond).
  - apply (bool_decide_unpack _). vm_compute. exact I.
  - apply (bool_decide_unpack _). vm_compute. exact I.
Defined.

(** C2. For every well-formed input without a cycle (and with at most
    [max_int] pairs), the sequence that [findOrder] returns has, for every pair [(a, b)] of the list, the item
    [b] strictly before the item [a] (and no item twice, so that "before"
    is about the one position of each item). *)
Theorem findOrder_respects_prerequisites n pre :
  valid_input n pre → Z.of_nat (length pre) ≤ max_int → acyclic pre →
  ∃ r, findOrder n pre = Some r ∧ NoDup r ∧
       ∀ a b, depends pre a b → before b a r.
Proof.
  intros Hvalid Hsmall Hacyc.
  destruct (findOrder_topo_spec n pre Hvalid Hsmall)
    as (t & Ht & Hnd & _ & Hfull & Hord).
  apply Hfull in Hacyc as Hlen. unfold findOrder. rewrite Ht. simpl.
  rewrite decide_True by (by apply length_full; [apply Hvalid|]). eauto.
Qed.

Lemma findOrder_respects_prerequisites_witness :
  ∃ r, findOrder 4 diamond = Some r ∧ NoDup r ∧
       ∀ a b, depends diamond a b → before b a r.
Proof.
  apply (findOrder_respects_prerequisites 4 diamond).
  - apply (bool_decide_unpack _). vm_compute. exact I.
  - apply (bool_decide_unpack _). vm_compute. exact I.
  - exact diamond_acyclic.
Defined.

(** C3, the claim as stated fails for [canFinish]: for the pair
    [(a, b) = (1, 0)] it appends [0] to [adj[1]], the edge [a → b]; the
    edge [b → a] (that is [0 → 1]) is not in its adjacency vectors. *)
Lemma canFinish_adj_not_reversed :
  valid_input 2 [[1; 0]] ∧ depends [[1; 0]] 1 0 ∧
  ∃ adj, canFinish_adj 2 [[1; 0]] = Some adj ∧ ¬ edge adj 0 1 ∧ edge adj 1 0.
Proof.
  split; [apply (bool_decide_unpack _); by vm_compute|].
  split; [left|]. exists [[]; [0]]. split; [done|]. unfold edge. split.
  - change (out [[]; [0]] 0) with (@nil Z). apply not_elem_of_nil.
  - change (out [[]; [0]] 1) with [0]. left.
Qed.

(** C3, amended.  For every well-formed input, [findOrder] records each
    pair [(a, b)] as the edge [b → a] and nothing else, so that an
    iteration of its loop on [b] decrements the counter of [a];
    [canFinish] records each pair [(a, b)] as the opposite edge [a → b] and
    nothing else, so that an iteration of its loop on [a] decrements the
    counter of [b]. *)
Theorem adjacency_directions n pre :
  valid_input n pre →
  (∃ adj, findOrder_adj n pre = Some adj ∧
     (∀ a b, depends pre a b ↔ edge adj b a) ∧
     (∀ a b ind q t st' d,
        depends pre a b → Kahn.body adj ind b q t = Some st' →
        at_ ind a = Some d →
        ∃ d', at_ (Kahn.indegre st') a = Some d' ∧ d' < d)) ∧
  (∃ adj, canFinish_adj n pre = Some adj ∧
     (∀ a b, depends pre a b ↔ edge adj a b) ∧
     (∀ a b ind q t st' d,
        depends pre a b → Kahn.body adj ind a q t = Some st' →
        at_ ind b = Some d →
        ∃ d', at_ (Kahn.indegre st') b = Some d' ∧ d' < d)).
Proof.
  intros Hvalid. split.
  - destruct (findOrder_adj_spec n pre Hvalid) as (adj & Hadj & _ & Hedge).
    exists adj. split; [done|]. split; [intros a b; by rewrite Hedge|].
    intros a b ind q t st' d Hab%Hedge%cnt_pos Hb Ha.
    eexists. split; [by eapply body_counts|]. lia.
  - destruct (canFinish_adj_spec n pre Hvalid) as (adj & Hadj & _ & Hedge).
    exists adj. split; [done|]. split; [intros a b; by rewrite Hedge|].
    intros a b ind q t st' d Hab%Hedge%cnt_pos Hb Ha.
    eexists. split; [by eapply body_counts|]. lia.
Qed.

Lemma adjacency_directions_witness :
  (∃ adj, findOrder_adj 4 diamond = Some adj ∧
     (∀ a b, depends diamond a b ↔ edge adj b a) ∧
     (∀ a b ind q t st' d,
        depends diamond a b → Kahn.body adj ind b q t = Some st' →
        at_ ind a = Some d →
        ∃ d', at_ (Kahn.indegre st') a = Some d' ∧ d' < d)) ∧
  (∃ adj, canFinish_adj 4 diamond = Some adj ∧
     (∀ a b, depends diamond a b ↔ edge adj a b) ∧
     (∀ a b ind q t st' d,
        depends diamond a b → Kahn.body adj ind a q t = Some st' →
        at_ ind b = Some d →
        ∃ d', at_ (Kahn.indegre st') b = Some d' ∧ d' < d)).
Proof.
  apply (adjacency_directions 4 diamond).
  apply (bool_decide_unpack _). vm_compute. exact I.
Defined.

(** C4, the claim as stated fails: the traversals are not identical.  For
    [n = 2] and the single pair [(1, 0)], the loop of [canFinish] outputs
    [1] then [0], the loop of [findOrder] outputs [0] then [1]. *)
Lemma traversals_differ :
  valid_input 2 [[1; 0]] ∧
  canFinish_topo 2 [[1; 0]] = Some [1; 0] ∧
  findOrder_topo 2 [[1; 0]] = Some [0; 1] ∧
  canFinish_topo 2 [[1; 0]] ≠ findOrder_topo 2 [[1; 0]].
Proof.
  split; [apply (bool_decide_unpack _); by vm_compute|].
  split; [by vm_compute|]. split; [by vm_compute|]. by vm_compute.
Qed.

(** C4, amended.  For every well-formed input with at most [max_int]
    pairs, [canFinish] returns [true] exactly when [findOrder] returns a
    sequence of length [n].  Both run the
    same loops, each on its own adjacency vectors, and these hold opposite
    edges; [canFinish] returns whether its [topo] has length [n],
    [findOrder] returns its [topo] if it has length [n] and the empty
    sequence otherwise. *)
Theorem canFinish_iff_findOrder_full n pre :
  valid_input n pre → Z.of_nat (length pre) ≤ max_int →
  (canFinish n pre = Some true ↔
   ∃ r, findOrder n pre = Some r ∧ Z.of_nat (length r) = n) ∧
  ∃ adjA adjB,
    canFinish_adj n pre = Some adjA ∧ findOrder_adj n pre = Some adjB ∧
    (∀ u v, edge adjA u v ↔ edge adjB v u) ∧
    canFinish n pre
    = (λ t, bool_decide (Z.of_nat (length t) = n)) <$> run n adjA ∧
    findOrder n pre
    = (λ t, if decide (Z.of_nat (length t) = n) then t else []) <$> run n adjB.
Proof.
  intros Hvalid Hsmall. pose proof (proj1 Hvalid) as Hn. split.
  - destruct (canFinish_topo_spec n pre Hvalid Hsmall)
      as (t & Ht & _ & _ & Hfull & _).
    destruct (findOrder_topo_spec n pre Hvalid Hsmall)
      as (t' & Ht' & Hnd' & Hrg' & Hfull' & _).
    pose proof (length_bounded t' n Hnd' Hrg') as Hle.
    unfold canFinish, findOrder. rewrite Ht, Ht'. simpl.
    rewrite <- Hfull', length_full in Hfull by done.
    rewrite length_full in Hfull by done. split.
    + intros [= H%bool_decide_eq_true%Hfull]. rewrite decide_True by done. eauto.
    + intros (r & [= <-] & Hr). f_equal. apply bool_decide_eq_true, Hfull.
      case_decide; [done|]. simpl in Hr. lia.
  - destruct (canFinish_adj_spec n pre Hvalid) as (adjA & HA & _ & HeA).
    destruct (findOrder_adj_spec n pre Hvalid) as (adjB & HB & _ & HeB).
    exists adjA, adjB. split; [done|]. split; [done|].
    split; [intros u v; by rewrite HeA, HeB|].
    unfold canFinish, findOrder.
    rewrite canFinish_topo_run, findOrder_topo_run, HA, HB. simpl.
    split; by destruct (run n _).
Qed.

Lemma canFinish_iff_findOrder_full_witness :
  (canFinish 4 diamond = Some true ↔
   ∃ r, findOrder 4 diamond = Some r ∧ Z.of_nat (length r) = 4) ∧
  ∃ adjA adjB,
    canFinish_adj 4 diamond = Some adjA ∧ findOrder_adj 4 diamond = Some adjB ∧
    (∀ u v, edge adjA u v ↔ edge adjB v u) ∧
    canFinish 4 diamond
    = (λ t, bool_decide (Z.of_nat (length t) = 4)) <$> run 4 adjA ∧
    findOrder 4 diamond
    = (λ t, if decide (Z.of_nat (length t) = 4) then t else []) <$> run 4 adjB.
Proof.
  apply (canFinish_iff_findOrder_full 4 diamond).
  - apply (bool_decide_unpack _). vm_compute. exact I.
  - apply (bool_decide_unpack _). vm_compute. exact I.
Defined.

(** C5. A cycle is reported through the returned value, not by a fault: for
    [n = 2] and the pairs [(0,1), (1,0)], [canFinish] returns [false] and
    [findOrder] returns the empty sequence; for [n = 1] and the self-loop
    [(0,0)], [canFinish] returns [false] and [findOrder] returns the empty
    sequence, not a sequence of length 1. *)
Theorem cycles_reported_by_value :
  canFinish 2 two_cycle = Some false ∧ findOrder 2 two_cycle = Some [] ∧
  canFinish 1 self_loop = Some false ∧ findOrder 1 self_loop = Some [].
Proof. repeat split; by vm_compute. Qed.

(** C6. For every [n ≥ 0] and the empty list of prerequisites, [canFinish]
    returns [true] and [findOrder] returns the identity ordering
    [0, 1, ..., n-1], which is in particular a permutation of [[0, n)]. *)
Theorem no_prerequisites n :
  0 ≤ n →
  canFinish n [] = Some true ∧
  ∃ r, findOrder n [] = Some r ∧ r = seqZ 0 n ∧ r ≡ₚ seqZ 0 n.
Proof.
  intros Hn. destruct (make_rows n Hn) as (adj0 & Hmake & Hlen & Hout).
  pose proof (run_no_edges n adj0 Hn Hlen Hout) as Hrun.
  assert (Z.of_nat (length (seqZ 0 n)) = n) as Hfull
    by (rewrite length_seqZ; lia).
  split.
  - unfold canFinish. rewrite canFinish_topo_run. unfold canFinish_adj.
    rewrite Hmake. simpl. rewrite Hrun. simpl.
    by rewrite bool_decide_eq_true_2.
  - exists (seqZ 0 n). split; [|done].
    unfold findOrder. rewrite findOrder_topo_run. unfold findOrder_adj.
    rewrite Hmake. simpl. rewrite Hrun. simpl. by rewrite decide_True.
Qed.

Lemma no_prerequisites_witness :
  canFinish 3 [] = Some true ∧
  ∃ r, findOrder 3 [] = Some r ∧ r = seqZ 0 3 ∧ r ≡ₚ seqZ 0 3.
Proof. apply (no_prerequisites 3). lia. Defined.

Lemma depends_duplicate pre p a b :
  p ∈ pre → depends (pre ++ [p]) a b ↔ depends pre a b.
Proof.
  intros Hp. unfold depends. rewrite elem_of_app, elem_of_cons. split.
  - intros [?|[->|[]%elem_of_nil]]; done.
  - auto.
Qed.

Lemma acyclic_duplicate pre p : p ∈ pre → acyclic (pre ++ [p]) ↔ acyclic pre.
Proof.
  intros Hp. unfold acyclic. split; intros H v Hv; apply (H v).
  - eapply tc_iff; [|done]. intros a b. by apply depends_duplicate.
  - eapply tc_iff; [|done]. intros a b. symmetry. by apply depends_duplicate.
Qed.

Lemma valid_duplicate n pre p :
  valid_input n pre → p ∈ pre → valid_input n (pre ++ [p]).
Proof.
  intros [Hn Hpre] Hp. split; [done|]. apply Forall_app. split; [done|].
  apply Forall_singleton. by eapply (proj1 (Forall_forall _ _) Hpre).
Qed.

(** C7. A pair given twice does not change the verdict: for every
    well-formed input and every pair [p] of the list (the longer list
    having at most [max_int] pairs), [canFinish] returns
    the same on the list with [p] appended again, and [findOrder] returns a
    sequence of length [n] on the one list exactly when it does on the
    other. *)
Theorem duplicate_pair_harmless n pre p :
  valid_input n pre → p ∈ pre → Z.of_nat (length (pre ++ [p])) ≤ max_int →
  canFinish n (pre ++ [p]) = canFinish n pre ∧
  ((∃ r, findOrder n (pre ++ [p]) = Some r ∧ Z.of_nat (length r) = n) ↔
   (∃ r, findOrder n pre = Some r ∧ Z.of_nat (length r) = n)).
Proof.
  intros Hvalid Hp Hsmall'.
  pose proof (valid_duplicate n pre p Hvalid Hp) as Hvalid'.
  assert (Z.of_nat (length pre) ≤ max_int) as Hsmall
    by (rewrite length_app in Hsmall'; lia).
  pose proof (proj1 Hvalid) as Hn.
  pose proof (acyclic_duplicate pre p Hp) as Hacyc.
  split.
  - destruct (canFinish_topo_spec n pre Hvalid Hsmall)
      as (t & Ht & _ & _ & Hfull & _).
    destruct (canFinish_topo_spec n _ Hvalid' Hsmall')
      as (t' & Ht' & _ & _ & Hfull' & _).
    unfold canFinish. rewrite Ht, Ht'. simpl. f_equal.
    apply bool_decide_ext. rewrite <- !length_full by done. tauto.
  - destruct (findOrder_topo_spec n pre Hvalid Hsmall)
      as (t & Ht & Hnd & Hrg & Hfull & _).
    destruct (findOrder_topo_spec n _ Hvalid' Hsmall')
      as (t' & Ht' & Hnd' & Hrg' & Hfull' & _).
    pose proof (length_bounded t n Hnd Hrg).
    pose proof (length_bounded t' n Hnd' Hrg').
    unfold findOrder. rewrite Ht, Ht'. simpl.
    rewrite length_full in Hfull, Hfull' by done.
    assert (Z.of_nat (length t') = n ↔ Z.of_nat (length t) = n) as Hiff by tauto.
    split; intros (r & [= <-] & Hr).
    + assert (Z.of_nat (length t') = n) as Hl'
        by (case_decide; [done|simpl in Hr; lia]).
      apply Hiff in Hl' as Hl. exists t. by rewrite decide_True.
    + assert (Z.of_nat (length t) = n) as Hl
        by (case_decide; [done|simpl in Hr; lia]).
      apply Hiff in Hl as Hl'. exists t'. by rewrite decide_True.
Qed.

Lemma duplicate_pair_harmless_witness :
  canFinish 4 (diamond ++ [[2; 0]]) = canFinish 4 diamond ∧
  ((∃ r, findOrder 4 (diamond ++ [[2; 0]]) = Some r ∧ Z.of_nat (length r) = 4) ↔
   (∃ r, findOrder 4 diamond = Some r ∧ Z.of_nat (length r) = 4)).
Proof.
  apply (duplicate_pair_harmless 4 diamond [2; 0]).
  - apply (bool_decide_unpack _). vm_compute. exact I.
  - apply (bool_decide_unpack _). vm_compute. exact I.
  - apply (bool_decide_unpack _). vm_compute. exact I.
Defined.

(** C8. Throughout the [while] loop of [canFinish] and of [findOrder], on
    every well-formed input: at the head of the loop and after every
    iteration of the inner [for] loop, every counter of [indegre] is [≥ 0];
    no item occurs twice in the sequence of the items pushed so far (the
    output [topo] followed by the queue); and the items pushed so far are
    exactly the items whose counter is [0], so that an item is pushed in the
    step in which its counter becomes [0], at the seeding or at a
    decrement. *)
Theorem loop_invariant n pre adj s0 st :
  valid_input n pre →
  canFinish_adj n pre = Some adj ∨ findOrder_adj n pre = Some adj →
  entry n adj = Some s0 →
  in_loop adj s0 st →
  Forall (λ d, 0 ≤ d) (Kahn.indegre st) ∧
  NoDup (Kahn.topo st ++ Kahn.qu st) ∧
  ∀ v, 0 ≤ v < n →
       v ∈ Kahn.topo st ++ Kahn.qu st ↔ at_ (Kahn.indegre st) v = Some 0.
Proof.
  intros Hvalid Hadj Hentry Hloop.
  assert (length adj = Z.to_nat n ∧ ∀ u v, v ∈ out adj u → 0 ≤ v < n)
    as [Hlen Hrange].
  { destruct Hvalid as [Hn Hpre]. rewrite Forall_forall in Hpre.
    destruct Hadj as [Hadj|Hadj].
    - destruct (canFinish_adj_spec n pre (conj Hn (proj2 (Forall_forall _ _) Hpre)))
        as (adj' & Hadj' & Hlen & Hedge).
      simplify_eq. split; [done|].
      intros u v [_ Hit]%Hedge%Hpre.
      by apply Forall_cons in Hit as [_ [? _]%Forall_cons].
    - destruct (findOrder_adj_spec n pre (conj Hn (proj2 (Forall_forall _ _) Hpre)))
        as (adj' & Hadj' & Hlen & Hedge).
      simplify_eq. split; [done|].
      intros u v [_ Hit]%Hedge%Hpre.
      by apply Forall_cons in Hit as [? _]. }
  pose proof (entry_inv n adj Hlen Hrange s0 Hentry) as H0.
  destruct (in_loop_inv n adj Hlen Hrange s0 st H0 Hloop) as [row Hinv].
  split; [by eapply inv_nonneg|]. split; [by eapply inv_nodup|].
  intros v Hv. by eapply inv_pushed.
Qed.

Lemma loop_invariant_witness :
  let st := Kahn.State [0; 0; 1; 2] [1] [0] in
  Forall (λ d, 0 ≤ d) (Kahn.indegre st) ∧
  NoDup (Kahn.topo st ++ Kahn.qu st) ∧
  ∀ v, 0 ≤ v < 4 →
       v ∈ Kahn.topo st ++ Kahn.qu st ↔ at_ (Kahn.indegre st) v = Some 0.
Proof.
  intros st.
  apply (loop_invariant 4 diamond [[1; 2]; [3]; [3]; []]
           (Kahn.State [0; 1; 1; 2] [0] []) st).
  - apply (bool_decide_unpack _). vm_compute. exact I.
  - right. reflexivity.
  - reflexivity.
  - apply (loop_for _ _ [0; 1; 1; 2] 0 [] [] [1] [2]).
    + apply head_entry.
    + reflexivity.
    + reflexivity.
Defined.

(** The states of the loop lead to the state in which the loop function
    ends, the queue being empty there. *)
Lemma run_at_head n adj t :
  run n adj = Some t →
  ∃ s0 st, entry n adj = Some s0 ∧ at_head adj s0 st ∧
           Kahn.qu st = [] ∧ Kahn.topo st = t.
Proof.
  unfold run, entry. intros Hrun.
  destruct (make n 0) as [ind0|]; simpl in *; [|done].
  destruct (Kahn.count_degrees _ _ _) as [ind|]; simpl in *; [|done].
  destruct (Kahn.seed _ _ _) as [q|]; simpl in *; [|done].
  destruct (Kahn.drain _ _) as [st|] eqn:Hd; simpl in *; [|done].
  simplify_eq. apply drain_at_head in Hd as [Hh Hq].
  eexists _, st. split; [done|]. split; [done|]. by split.
Qed.

(** C9, the claim as stated fails: with [x = INT_MIN] and [y = z = 0] both
    differences are representable and [|x - z| > |y - z|], yet the function
    does not return [2]: [abs(INT_MIN)] has no representable result
    (undefined behaviour; a two's complement machine yields [INT_MIN],
    which compares smaller than [0]). *)
Lemma findClosest_abs_of_INT_MIN :
  let x := Closest.INT_MIN in
  let y := 0 in
  let z := 0 in
  Closest.INT_MIN ≤ x - z ≤ Closest.INT_MAX ∧
  Closest.INT_MIN ≤ y - z ≤ Closest.INT_MAX ∧
  Z.abs (x - z) > Z.abs (y - z) ∧
  Closest.findClosest x y z = None ∧
  Closest.findClosest x y z ≠ Some 2.
Proof. by vm_compute. Qed.

(** C9, amended.  For all integers [x], [y], [z] whose differences [x - z]
    and [y - z] and their absolute values are representable, that is lie in
    [[-INT_MAX, INT_MAX]]: [findClosest] returns 1 when [|x - z| < |y - z|],
    2 when [|x - z| > |y - z|], and 0 when the two distances are equal. *)
Theorem findClosest_spec x y z :
  - Closest.INT_MAX ≤ x - z ≤ Closest.INT_MAX →
  - Closest.INT_MAX ≤ y - z ≤ Closest.INT_MAX →
  (Z.abs (x - z) < Z.abs (y - z) → Closest.findClosest x y z = Some 1) ∧
  (Z.abs (x - z) > Z.abs (y - z) → Closest.findClosest x y z = Some 2) ∧
  (Z.abs (x - z) = Z.abs (y - z) → Closest.findClosest x y z = Some 0).
Proof.
  intros Hx Hy. unfold Closest.findClosest, Closest.abs, Closest.int.
  unfold Closest.INT_MAX, Closest.INT_MIN in *.
  rewrite (decide_True (P := _ ≤ x - z ≤ _)) by lia. simpl.
  rewrite (decide_True (P := _ ≤ Z.abs (x - z) ≤ _)) by lia. simpl.
  rewrite (decide_True (P := _ ≤ y - z ≤ _)) by lia. simpl.
  rewrite (decide_True (P := _ ≤ Z.abs (y - z) ≤ _)) by lia. simpl.
  repeat split; intros H; repeat case_decide; done || lia.
Qed.

Lemma findClosest_spec_witness :
  (Z.abs (2 - 4) < Z.abs (7 - 4) → Closest.findClosest 2 7 4 = Some 1) ∧
  (Z.abs (2 - 4) > Z.abs (7 - 4) → Closest.findClosest 2 7 4 = Some 2) ∧
  (Z.abs (2 - 4) = Z.abs (7 - 4) → Closest.findClosest 2 7 4 = Some 0).
Proof.
  apply (findClosest_spec 2 7 4); unfold Closest.INT_MAX; lia.
Defined.

(** * Further properties of the three functions *)

(** ** Where [canFinish] and [findOrder] are defined *)

Lemma at_take_2 (it : list Z) i : 0 ≤ i < 2 → at_ (take 2 it) i = at_ it i.
Proof.
  intros Hi. unfold at_. case_decide; [|done]. apply lookup_take_lt. lia.
Qed.

Lemma add_edges_take_2 src dst pre : ∀ adj,
  0 ≤ src < 2 → 0 ≤ dst < 2 →
  Kahn.add_edges src dst (take 2 <$> pre) adj = Kahn.add_edges src dst pre adj.
Proof.
  induction pre as [|it pre IH]; intros adj Hs Hd; [done|].
  rewrite fmap_cons. simpl. rewrite !at_take_2 by done.
  destruct (at_ it src) as [u|]; simpl; [|done].
  destruct (at_ it dst) as [v|]; simpl; [|done].
  destruct (at_ adj u) as [row|]; simpl; [|done]. by apply IH.
Qed.

Lemma readable_take_2 n pre :
  0 ≤ n → Forall (readable n) pre → valid_input n (take 2 <$> pre).
Proof.
  intros Hn Hpre. split; [done|]. apply Forall_fmap.
  eapply Forall_impl; [done|]. intros it (a & b & Ha & Hb & Har & Hbr). simpl.
  apply at_Some in Ha as [_ Ha]. apply at_Some in Hb as [_ Hb].
  destruct it as [|a' [|b' it]]; simplify_eq/=.
  rewrite take_0. split; [done|].
  apply Forall_cons. split; [done|]. apply Forall_cons. split; [done|].
  apply Forall_nil_2.
Qed.

Lemma add_edges_inv src dst pre : ∀ adj0 adj,
  Kahn.add_edges src dst pre adj0 = Some adj →
  length adj = length adj0 ∧
  (∀ u v, v ∈ out adj0 u → v ∈ out adj u) ∧
  Forall (λ it, ∃ u v, at_ it src = Some u ∧ at_ it dst = Some v ∧
                       0 ≤ u < Z.of_nat (length adj0) ∧ v ∈ out adj u) pre.
Proof.
  induction pre as [|it pre IH]; intros adj0 adj Hadd; simpl in Hadd.
  - by simplify_eq.
  - destruct (at_ it src) as [u|] eqn:Hu; simpl in Hadd; [|done].
    destruct (at_ it dst) as [v|] eqn:Hv; simpl in Hadd; [|done].
    destruct (at_ adj0 u) as [row|] eqn:Hrow; simpl in Hadd; [|done].
    pose proof (at_lt _ _ _ Hrow) as Hur.
    apply IH in Hadd as (Hlen & Hkeep & Hall). rewrite length_put in Hlen.
    split; [done|]. split.
    + intros u' v' Hin. apply Hkeep. rewrite out_put by done.
      case_decide; [|done]. subst. rewrite (out_Some _ _ _ Hrow) in Hin.
      apply elem_of_app. by left.
    + constructor.
      * exists u, v. split; [done|]. split; [done|]. split; [done|].
        apply Hkeep. rewrite out_put, decide_True by done.
        apply elem_of_app. right. by left.
      * eapply Forall_impl; [done|]. intros it' (u' & v' & ? & ? & ? & ?).
        rewrite length_put in *. by exists u', v'.
Qed.

Lemma bump_inv row : ∀ ind ind',
  Kahn.bump row ind = Some ind' →
  length ind' = length ind ∧ ∀ v, v ∈ row → 0 ≤ v < Z.of_nat (length ind).
Proof.
  induction row as [|it row IH]; intros ind ind' Hb; simpl in Hb.
  - simplify_eq. split; [done|]. by intros v ?%elem_of_nil.
  - destruct (at_ ind it) as [d|] eqn:Hd; simpl in Hb; [|done].
    destruct (in_int (d + 1)) as [d'|]; simpl in Hb; [|done].
    apply IH in Hb as [Hlen Hrow]. rewrite length_put in *.
    split; [done|]. intros v [->|Hv]%elem_of_cons; [by eapply at_lt|auto].
Qed.

Lemma count_degrees_inv idx adj : ∀ ind ind',
  Kahn.count_degrees idx adj ind = Some ind' →
  length ind' = length ind ∧
  ∀ i v, i ∈ idx → v ∈ out adj i → 0 ≤ v < Z.of_nat (length ind).
Proof.
  induction idx as [|i idx IH]; intros ind ind' Hc; simpl in Hc.
  - simplify_eq. split; [done|]. by intros i v ?%elem_of_nil.
  - destruct (at_ adj i) as [row|] eqn:Hrow; simpl in Hc; [|done].
    destruct (Kahn.bump row ind) as [ind1|] eqn:Hb; simpl in Hc; [|done].
    apply bump_inv in Hb as [Hl1 Hr1]. apply IH in Hc as [Hl Hr].
    rewrite Hl1 in *. split; [done|].
    intros j v [->|Hj]%elem_of_cons Hv; [|by eapply Hr].
    rewrite (out_Some _ _ _ Hrow) in Hv. auto.
Qed.

(** If the loops of a function run to their end on the adjacency vectors of
    [pre], every element of [pre] was readable. *)
Lemma run_defined_readable n src dst pre adj0 adj t :
  make n [] = Some adj0 → Kahn.add_edges src dst pre adj0 = Some adj →
  run n adj = Some t →
  0 ≤ n ∧ Forall (λ it, ∃ u v, at_ it src = Some u ∧ at_ it dst = Some v ∧
                               0 ≤ u < n ∧ 0 ≤ v < n) pre.
Proof.
  unfold run, make. case_decide as Hn; [|done]. intros [= <-] Hadd Hrun.
  split; [done|]. apply add_edges_inv in Hadd as (Hlen & _ & Hall).
  rewrite length_replicate in *. simpl in Hrun.
  destruct (Kahn.count_degrees _ _ _) as [ind|] eqn:Hc; simpl in Hrun; [|done].
  apply count_degrees_inv in Hc as [_ Hc]. rewrite length_replicate in Hc.
  eapply Forall_impl; [done|]. intros it (u & v & Hu & Hv & Hur & Hin). simpl in *.
  exists u, v. split; [done|]. split; [done|]. split; [lia|].
  assert (0 ≤ v < Z.of_nat (Z.to_nat n)); [|lia].
  apply (Hc u v); [|done]. apply elem_of_seqZ. lia.
Qed.

Lemma take_2_results n pre :
  canFinish n (take 2 <$> pre) = canFinish n pre ∧
  findOrder n (take 2 <$> pre) = findOrder n pre.
Proof.
  unfold canFinish, findOrder, canFinish_topo, findOrder_topo.
  split; (destruct (make n []) as [adj0|]; simpl; [|done]);
    by rewrite add_edges_take_2 by lia.
Qed.

(** X1. Both functions read the entries 0 and 1 of every element of [pre]
    and nothing else: cutting every element down to its first two entries
    changes neither result. *)
Theorem entries_after_second_ignored n pre :
  canFinish n (take 2 <$> pre) = canFinish n pre ∧
  findOrder n (take 2 <$> pre) = findOrder n pre.
Proof. apply take_2_results. Qed.

(** X2. On a list of at most [max_int] elements the two functions have a
    defined result on exactly the same inputs: [n ≥ 0] and every element of
    [pre] has entries 0 and 1 that are items of [[0, n)].  On any other
    such input a vector is indexed outside its bounds (or constructed with
    a negative size). *)
Theorem defined_iff_readable n pre :
  Z.of_nat (length pre) ≤ max_int →
  (is_Some (canFinish n pre) ↔ 0 ≤ n ∧ Forall (readable n) pre) ∧
  (is_Some (findOrder n pre) ↔ 0 ≤ n ∧ Forall (readable n) pre).
Proof.
  intros Hsmall.
  assert (Z.of_nat (length (take 2 <$> pre)) ≤ max_int) as Hsmall'
    by (by rewrite length_fmap).
  split; split.
  - intros [b Hb]. unfold canFinish in Hb. rewrite canFinish_topo_run in Hb.
    unfold canFinish_adj in Hb.
    destruct (make n []) as [adj0|] eqn:Hm; simpl in Hb; [|done].
    destruct (Kahn.add_edges 0 1 pre adj0) as [adj|] eqn:Ha; simpl in Hb; [|done].
    destruct (run n adj) as [t|] eqn:Hr; simpl in Hb; [|done].
    destruct (run_defined_readable n 0 1 pre adj0 adj t Hm Ha Hr) as [Hn Hall].
    split; [done|]. eapply Forall_impl; [done|].
    intros it (u & v & ? & ? & ? & ?). by exists u, v.
  - intros [Hn Hpre]. rewrite <- (proj1 (take_2_results n pre)).
    destruct (canFinish_topo_spec n _ (readable_take_2 n pre Hn Hpre) Hsmall')
      as (t & Ht & _).
    unfold canFinish. rewrite Ht. by eexists.
  - intros [b Hb]. unfold findOrder in Hb. rewrite findOrder_topo_run in Hb.
    unfold findOrder_adj in Hb.
    destruct (make n []) as [adj0|] eqn:Hm; simpl in Hb; [|done].
    destruct (Kahn.add_edges 1 0 pre adj0) as [adj|] eqn:Ha; simpl in Hb; [|done].
    destruct (run n adj) as [t|] eqn:Hr; simpl in Hb; [|done].
    destruct (run_defined_readable n 1 0 pre adj0 adj t Hm Ha Hr) as [Hn Hall].
    split; [done|]. eapply Forall_impl; [done|].
    intros it (u & v & ? & ? & ? & ?). by exists v, u.
  - intros [Hn Hpre]. rewrite <- (proj2 (take_2_results n pre)).
    destruct (findOrder_topo_spec n _ (readable_take_2 n pre Hn Hpre) Hsmall')
      as (t & Ht & _).
    unfold findOrder. rewrite Ht. by eexists.
Qed.

Lemma defined_iff_readable_witness :
  (is_Some (canFinish 4 diamond) ↔ 0 ≤ 4 ∧ Forall (readable 4) diamond) ∧
  (is_Some (findOrder 4 diamond) ↔ 0 ≤ 4 ∧ Forall (readable 4) diamond).
Proof.
  apply (defined_iff_readable 4 diamond).
  apply (bool_decide_unpack _). vm_compute. exact I.
Defined.

(** ** The sequence that [findOrder] returns *)

(** X3. On every well-formed input without a cycle (and with at most
    [max_int] pairs), [findOrder] returns a
    permutation of [0, 1, ..., n-1]: every item once, and nothing else. *)
Theorem findOrder_permutation n pre :
  valid_input n pre → Z.of_nat (length pre) ≤ max_int → acyclic pre →
  ∃ r, findOrder n pre = Some r ∧ r ≡ₚ seqZ 0 n.
Proof.
  intros Hvalid Hsmall Hacyc.
  destruct (findOrder_topo_spec n pre Hvalid Hsmall)
    as (t & Ht & Hnd & Hrg & Hfull & _).
  apply Hfull in Hacyc as Hlen. unfold findOrder. rewrite Ht. simpl.
  rewrite decide_True by (by apply length_full; [apply Hvalid|]).
  exists t. split; [done|]. apply submseteq_length_Permutation.
  - apply NoDup_submseteq; [done|]. intros v Hv%Hrg. apply elem_of_seqZ. lia.
  - rewrite length_seqZ. lia.
Qed.

Lemma findOrder_permutation_witness :
  ∃ r, findOrder 4 diamond = Some r ∧ r ≡ₚ seqZ 0 4.
Proof.
  apply (findOrder_permutation 4 diamond).
  - apply (bool_decide_unpack _). vm_compute. exact I.
  - apply (bool_decide_unpack _). vm_compute. exact I.
  - exact diamond_acyclic.
Defined.

Lemma filter_ext_in {A} (P Q : A → Prop) `{∀ x, Decision (P x)}
    `{∀ x, Decision (Q x)} (l : list A) :
  (∀ x, x ∈ l → P x ↔ Q x) → filter P l = filter Q l.
Proof.
  induction l as [|x l IH]; intros Hext; [done|].
  rewrite !filter_cons, IH by (intros y Hy; apply Hext; by right).
  pose proof (Hext x (list_elem_of_here _ _)).
  destruct (decide (P x)), (decide (Q x)); tauto || done.
Qed.

Lemma at_head_prefix adj s0 st :
  at_head adj s0 st →
  (Kahn.topo s0 ++ Kahn.qu s0) `prefix_of` (Kahn.topo st ++ Kahn.qu st).
Proof.
  induction 1 as [|ind top q t st' _ IH Hb]; [done|].
  apply body_appends in Hb as [new ->]. simpl in IH.
  by apply prefix_app_r.
Qed.

(** The queue at the entry of the loop: the items whose row count is 0, in
    ascending order. *)
Lemma entry_queue n adj s0 :
  0 ≤ n → length adj = Z.to_nat n → (∀ u v, v ∈ out adj u → 0 ≤ v < n) →
  entry n adj = Some s0 →
  Kahn.topo s0 = [] ∧
  Kahn.qu s0 = filter (λ v, v ∉ outs adj (seqZ 0 n)) (seqZ 0 n).
Proof.
  intros Hn Hlen Hrange. unfold entry.
  destruct (tab_make n 0 Hn) as (ind0 & -> & H0). simpl.
  assert (∀ i, i ∈ seqZ 0 n → 0 ≤ i < n) as Hidx.
  { intros i. rewrite elem_of_seqZ. lia. }
  destruct (Kahn.count_degrees _ _ _) as [ind|] eqn:Hc; simpl; [|done].
  pose proof (count_degrees_tab n adj Hlen Hrange _ _ _ _ H0 Hidx Hc) as Hind.
  rewrite (seed_spec n _ _ _ [] Hind Hidx). simpl. intros [= <-]. simpl.
  split; [done|]. apply filter_ext_in. intros v Hv.
  rewrite <- cnt_zero. lia.
Qed.

Lemma no_prerequisite_edge n pre adj v :
  valid_input n pre → length adj = Z.to_nat n →
  (∀ a b, edge adj b a ↔ depends pre a b) →
  no_prerequisite pre v ↔ v ∉ outs adj (seqZ 0 n).
Proof.
  intros [Hn Hpre] Hlen Hedge. unfold no_prerequisite.
  rewrite elem_of_outs, Forall_forall. rewrite Forall_forall in Hpre. split.
  - intros Hno (u & _ & Hu%Hedge). by apply (Hno _ Hu).
  - intros Hno it Hit Hv.
    destruct (valid_pair n it (Hpre it Hit)) as (a & b & -> & _ & Hb).
    rewrite at_pair_0 in Hv. simplify_eq. apply Hno. exists b.
    split; [apply elem_of_seqZ; lia|]. by apply Hedge.
Qed.

(** X4. The tie-break of the queue: on every well-formed input without a
    cycle (and with at most [max_int] pairs), the sequence that [findOrder] returns starts with the items that
    have no prerequisite, in ascending order. *)
Theorem findOrder_starts_with_free_items n pre :
  valid_input n pre → Z.of_nat (length pre) ≤ max_int → acyclic pre →
  ∃ r, findOrder n pre = Some r ∧
       filter (no_prerequisite pre) (seqZ 0 n) `prefix_of` r.
Proof.
  intros Hvalid Hsmall Hacyc. pose proof (proj1 Hvalid) as Hn.
  destruct (findOrder_topo_spec n pre Hvalid Hsmall)
    as (t & Ht & _ & _ & Hfull & _).
  apply Hfull in Hacyc as Hlen. unfold findOrder. rewrite Ht. simpl.
  rewrite decide_True by (by apply length_full). exists t. split; [done|].
  destruct (findOrder_adj_spec n pre Hvalid) as (adj & Hadj & Hl & Hedge).
  rewrite findOrder_topo_run, Hadj in Ht. simpl in Ht.
  apply run_at_head in Ht as (s0 & st & Hentry & Hhead & Hq & <-).
  apply entry_queue in Hentry as [Ht0 Hq0]; [|done..|].
  2: { intros u v [_ Hit]%Hedge%(proj1 (Forall_forall _ _) (proj2 Hvalid)).
       by apply Forall_cons in Hit as [? _]. }
  apply at_head_prefix in Hhead. rewrite Ht0, Hq0, Hq, app_nil_r in Hhead.
  simpl in Hhead.
  rewrite (filter_ext_in _ (λ v, v ∉ outs adj (seqZ 0 n))); [done|].
  intros v _. by eapply no_prerequisite_edge.
Qed.

Lemma findOrder_starts_with_free_items_witness :
  ∃ r, findOrder 4 [[3; 1]; [3; 2]] = Some r ∧
       filter (no_prerequisite [[3; 1]; [3; 2]]) (seqZ 0 4) `prefix_of` r.
Proof.
  apply (findOrder_starts_with_free_items 4 [[3; 1]; [3; 2]]).
  - apply (bool_decide_unpack _). vm_compute. exact I.
  - apply (bool_decide_unpack _). vm_compute. exact I.
  - destruct (findOrder_topo_spec 4 [[3; 1]; [3; 2]])
      as (t & Ht & _ & _ & Hfull & _).
    + apply (bool_decide_unpack _). vm_compute. exact I.
    + apply (bool_decide_unpack _). vm_compute. exact I.
    + apply Hfull. vm_compute in Ht. by simplify_eq.
Defined.

(** ** The verdict depends on the graph alone *)

Lemma canFinish_verdict n pre :
  valid_input n pre → Z.of_nat (length pre) ≤ max_int →
  ∃ b, canFinish n pre = Some b ∧ (b = true ↔ acyclic pre).
Proof.
  intros Hvalid Hsmall.
  destruct (canFinish_topo_spec n pre Hvalid Hsmall)
    as (t & Ht & _ & _ & Hfull & _).
  unfold canFinish. rewrite Ht. simpl. eexists. split; [done|].
  by rewrite bool_decide_eq_true, <- Hfull, length_full by apply Hvalid.
Qed.

Lemma findOrder_verdict n pre :
  valid_input n pre → Z.of_nat (length pre) ≤ max_int →
  ∃ r, findOrder n pre = Some r ∧
       (acyclic pre → Z.of_nat (length r) = n) ∧ (¬ acyclic pre → r = []).
Proof.
  intros Hvalid Hsmall.
  destruct (findOrder_topo_spec n pre Hvalid Hsmall)
    as (t & Ht & _ & _ & Hfull & _).
  unfold findOrder. rewrite Ht. simpl. eexists. split; [done|].
  rewrite <- Hfull, length_full by apply Hvalid.
  case_decide; split; intros; done.
Qed.

(** [findOrder] returns a sequence of length [n] exactly on the acyclic
    inputs. *)
Lemma findOrder_full_iff n pre :
  valid_input n pre → Z.of_nat (length pre) ≤ max_int →
  (∃ r, findOrder n pre = Some r ∧ Z.of_nat (length r) = n) ↔ acyclic pre.
Proof.
  intros Hvalid Hsmall. pose proof (proj1 Hvalid) as Hn.
  destruct (findOrder_topo_spec n pre Hvalid Hsmall)
    as (t & Ht & Hnd & Hrg & Hfull & _).
  pose proof (length_bounded t n Hnd Hrg) as Hle.
  unfold findOrder. rewrite Ht. simpl. rewrite <- Hfull, length_full by done.
  split.
  - intros (r & [= <-] & Hr). case_decide; [done|]. simpl in Hr. lia.
  - intros Hl. eexists. split; [done|]. by rewrite decide_True.
Qed.

Lemma valid_subset n pre pre' :
  valid_input n pre → (∀ p, p ∈ pre' → p ∈ pre) → valid_input n pre'.
Proof.
  intros [Hn Hpre] Hsub. split; [done|]. rewrite Forall_forall in *. auto.
Qed.

Lemma acyclic_subset pre pre' :
  (∀ p, p ∈ pre' → p ∈ pre) → acyclic pre → acyclic pre'.
Proof.
  intros Hsub Hacyc v Hv. apply (Hacyc v). eapply tc_mono; [|done].
  intros a b. apply Hsub.
Qed.

(** A [true] of [canFinish] excludes a cycle, whatever the size of the
    list. *)
Lemma canFinish_true_acyclic n pre :
  valid_input n pre → canFinish n pre = Some true → acyclic pre.
Proof.
  intros Hvalid Htrue.
  destruct (canFinish_adj_spec n pre Hvalid) as (adj & Hadj & Hlen & Hedge).
  unfold canFinish in Htrue. rewrite canFinish_topo_run, Hadj in Htrue.
  simpl in Htrue. destruct (run n adj) as [t|] eqn:Hrun; simpl in Htrue; [|done].
  injection Htrue as Htrue. apply bool_decide_eq_true in Htrue.
  destruct Hvalid as [Hn Hpre].
  destruct (run_sound n adj t Hn Hlen) as (_ & _ & Hfull & _); [|done|].
  { intros u v [_ Hit]%Hedge%(proj1 (Forall_forall _ _) Hpre).
    by apply Forall_cons in Hit as [_ [? _]%Forall_cons]. }
  intros w Hw. apply (proj1 Hfull) with (w := w); [lia|].
  by apply (tc_iff (edge adj) (depends pre)).
Qed.

(** X5. Dropping prerequisites never makes a feasible input infeasible: if
    [canFinish] returns [true] on a well-formed input, it returns [true] on
    every list of at most [max_int] pairs of that input (fewer pairs,
    another order, repetitions), and [findOrder] returns a sequence of
    length [n] there. *)
Theorem fewer_pairs_stay_feasible n pre pre' :
  valid_input n pre → (∀ p, p ∈ pre' → p ∈ pre) →
  Z.of_nat (length pre') ≤ max_int →
  canFinish n pre = Some true →
  canFinish n pre' = Some true ∧
  ∃ r, findOrder n pre' = Some r ∧ Z.of_nat (length r) = n.
Proof.
  intros Hvalid Hsub Hsmall' Htrue.
  pose proof (valid_subset n pre pre' Hvalid Hsub) as Hvalid'.
  assert (acyclic pre') as Hacyc.
  { apply (acyclic_subset pre); [done|]. by eapply canFinish_true_acyclic. }
  split.
  - destruct (canFinish_verdict n pre' Hvalid' Hsmall') as (b' & -> & Hiff').
    f_equal. by apply Hiff'.
  - destruct (findOrder_verdict n pre' Hvalid' Hsmall') as (r & Hr & Hfull & _).
    exists r. auto.
Qed.

Lemma fewer_pairs_stay_feasible_witness :
  canFinish 4 [[3; 2]; [1; 0]; [1; 0]] = Some true ∧
  ∃ r, findOrder 4 [[3; 2]; [1; 0]; [1; 0]] = Some r ∧ Z.of_nat (length r) = 4.
Proof.
  apply (fewer_pairs_stay_feasible 4 diamond [[3; 2]; [1; 0]; [1; 0]]).
  - apply (bool_decide_unpack _). vm_compute. exact I.
  - intros p Hp. apply (bool_decide_unpack _).
    apply elem_of_cons in Hp as [->|Hp]; [by vm_compute|].
    apply elem_of_cons in Hp as [->|Hp]; [by vm_compute|].
    apply elem_of_cons in Hp as [->|Hp]; [by vm_compute|].
    by apply elem_of_nil in Hp.
  - apply (bool_decide_unpack _). vm_compute. exact I.
  - by vm_compute.
Defined.

(** X6. The verdict depends on the set of pairs alone: two well-formed
    lists of at most [max_int] pairs each with the same pairs, in whatever
    order and multiplicity, get the
    same result from [canFinish], and [findOrder] returns a sequence of
    length [n] on the one exactly when it does on the other. *)
Theorem same_pairs_same_verdict n pre pre' :
  valid_input n pre → (∀ p, p ∈ pre' ↔ p ∈ pre) →
  Z.of_nat (length pre) ≤ max_int → Z.of_nat (length pre') ≤ max_int →
  canFinish n pre' = canFinish n pre ∧
  ((∃ r, findOrder n pre' = Some r ∧ Z.of_nat (length r) = n) ↔
   (∃ r, findOrder n pre = Some r ∧ Z.of_nat (length r) = n)).
Proof.
  intros Hvalid Hsame Hsmall Hsmall'.
  assert (valid_input n pre') as Hvalid'
    by (apply (valid_subset n pre); [done|]; intros p; apply Hsame).
  assert (acyclic pre' ↔ acyclic pre) as Hacyc.
  { split; apply acyclic_subset; intros p; apply Hsame. }
  destruct (canFinish_verdict n pre Hvalid Hsmall) as (b & Hb & Hiff).
  destruct (canFinish_verdict n pre' Hvalid' Hsmall') as (b' & Hb' & Hiff').
  assert (b' = true ↔ b = true) as Hbb by tauto.
  assert (b' = b) as -> by (destruct b, b'; intuition congruence).
  split; [congruence|].
  rewrite (findOrder_full_iff n pre Hvalid Hsmall),
    (findOrder_full_iff n pre' Hvalid' Hsmall').
  done.
Qed.

Lemma same_pairs_same_verdict_witness :
  canFinish 4 [[2; 0]; [1; 0]; [3; 2]; [3; 1]; [1; 0]] = canFinish 4 diamond ∧
  ((∃ r, findOrder 4 [[2; 0]; [1; 0]; [3; 2]; [3; 1]; [1; 0]] = Some r ∧
         Z.of_nat (length r) = 4) ↔
   (∃ r, findOrder 4 diamond = Some r ∧ Z.of_nat (length r) = 4)).
Proof.
  apply (same_pairs_same_verdict 4 diamond).
  - apply (bool_decide_unpack _). vm_compute. exact I.
  - intros p. unfold diamond. rewrite !elem_of_cons. tauto.
  - apply (bool_decide_unpack _). vm_compute. exact I.
  - apply (bool_decide_unpack _). vm_compute. exact I.
Defined.

(** X7. A pair [(a, a)] makes the input infeasible whatever else it holds:
    on every well-formed input of at most [max_int] pairs with such a pair [canFinish] returns [false]
    and [findOrder] returns the empty sequence. *)
Theorem self_loop_infeasible n pre a :
  valid_input n pre → Z.of_nat (length pre) ≤ max_int → [a; a] ∈ pre →
  canFinish n pre = Some false ∧ findOrder n pre = Some [].
Proof.
  intros Hvalid Hsmall Ha.
  assert (¬ acyclic pre) as Hcyc.
  { intros Hacyc. apply (Hacyc a). by apply tc_once. }
  split.
  - destruct (canFinish_verdict n pre Hvalid Hsmall) as (b & -> & Hiff).
    f_equal. destruct b; [|done]. by destruct Hcyc; apply Hiff.
  - destruct (findOrder_verdict n pre Hvalid Hsmall) as (r & -> & _ & Hempty).
    f_equal. by apply Hempty.
Qed.

Lemma self_loop_infeasible_witness :
  canFinish 3 [[1; 0]; [2; 2]] = Some false ∧
  findOrder 3 [[1; 0]; [2; 2]] = Some [].
Proof.
  apply (self_loop_infeasible 3 [[1; 0]; [2; 2]] 2).
  - apply (bool_decide_unpack _). vm_compute. exact I.
  - apply (bool_decide_unpack _). vm_compute. exact I.
  - apply (bool_decide_unpack _). vm_compute. exact I.
Defined.

Lemma depends_reverse n pre a b :
  valid_input n pre → depends (reverse <$> pre) a b ↔ depends pre b a.
Proof.
  intros [_ Hpre]. rewrite Forall_forall in Hpre. unfold depends.
  rewrite list_elem_of_fmap. split.
  - intros (it & Hrev & Hit).
    destruct (valid_pair n it (Hpre it Hit)) as (a' & b' & -> & _).
    change (reverse [a'; b']) with [b'; a'] in Hrev. by simplify_eq.
  - intros Hin. by exists [b; a].
Qed.

Lemma valid_reverse n pre : valid_input n pre → valid_input n (reverse <$> pre).
Proof.
  intros [Hn Hpre]. split; [done|]. apply Forall_fmap.
  eapply Forall_impl; [done|]. intros it [Hlen Hall]. simpl.
  split; [by rewrite length_reverse|]. by apply Forall_reverse.
Qed.

(** X8. The direction of the pairs does not matter for the verdict: on
    every well-formed input of at most [max_int] pairs, [canFinish] returns the same result when every
    pair [(a, b)] is replaced by [(b, a)]. *)
Theorem canFinish_reversed_pairs n pre :
  valid_input n pre → Z.of_nat (length pre) ≤ max_int →
  canFinish n (reverse <$> pre) = canFinish n pre.
Proof.
  intros Hvalid Hsmall. pose proof (valid_reverse n pre Hvalid) as Hvalid'.
  assert (Z.of_nat (length (reverse <$> pre)) ≤ max_int) as Hsmall'
    by (by rewrite length_fmap).
  destruct (canFinish_verdict n pre Hvalid Hsmall) as (b & -> & Hiff).
  destruct (canFinish_verdict n _ Hvalid' Hsmall') as (b' & -> & Hiff').
  assert (acyclic (reverse <$> pre) ↔ acyclic pre) as Hacyc.
  { split; intros H v Hv; apply (H v); (eapply tc_flip; [|done]);
      intros x y Hxy; by apply (depends_reverse n pre). }
  f_equal. destruct b, b'; intuition congruence.
Qed.

Lemma canFinish_reversed_pairs_witness :
  canFinish 4 (reverse <$> diamond) = canFinish 4 diamond.
Proof.
  apply (canFinish_reversed_pairs 4 diamond).
  - apply (bool_decide_unpack _). vm_compute. exact I.
  - apply (bool_decide_unpack _). vm_compute. exact I.
Defined.

(** ** Find Closest Person *)

Lemma closest_defined x y z :
  is_Some (Closest.findClosest x y z) ↔
  (- Closest.INT_MAX ≤ x - z ≤ Closest.INT_MAX) ∧
  (- Closest.INT_MAX ≤ y - z ≤ Closest.INT_MAX).
Proof.
  unfold Closest.findClosest, Closest.abs, Closest.int.
  unfold Closest.INT_MAX, Closest.INT_MIN.
  split.
  - intros [r Hr].
    destruct (decide (_ ≤ x - z ≤ _)); simpl in Hr; [|done].
    destruct (decide (_ ≤ Z.abs (x - z) ≤ _)); simpl in Hr; [|done].
    destruct (decide (_ ≤ y - z ≤ _)); simpl in Hr; [|done].
    destruct (decide (_ ≤ Z.abs (y - z) ≤ _)); simpl in Hr; [|done]. lia.
  - intros [Hx Hy].
    rewrite (decide_True (P := _ ≤ x - z ≤ _)) by lia. simpl.
    rewrite (decide_True (P := _ ≤ Z.abs (x - z) ≤ _)) by lia. simpl.
    rewrite (decide_True (P := _ ≤ y - z ≤ _)) by lia. simpl.
    rewrite (decide_True (P := _ ≤ Z.abs (y - z) ≤ _)) by lia. simpl.
    repeat case_decide; by eexists.
Qed.

(** X9. [findClosest] has a defined result exactly when both differences
    lie in [[-INT_MAX, INT_MAX]]: otherwise [x - z], [y - z] or [abs]
    overflows. *)
Theorem findClosest_defined_iff x y z :
  is_Some (Closest.findClosest x y z) ↔
  (- Closest.INT_MAX ≤ x - z ≤ Closest.INT_MAX) ∧
  (- Closest.INT_MAX ≤ y - z ≤ Closest.INT_MAX).
Proof. apply closest_defined. Qed.

Lemma findClosest_cases x y z r :
  Closest.findClosest x y z = Some r ↔
  (- Closest.INT_MAX ≤ x - z ≤ Closest.INT_MAX) ∧
  (- Closest.INT_MAX ≤ y - z ≤ Closest.INT_MAX) ∧
  r = (if decide (Z.abs (x - z) < Z.abs (y - z)) then 1
       else if decide (Z.abs (x - z) > Z.abs (y - z)) then 2 else 0).
Proof.
  unfold Closest.findClosest, Closest.abs, Closest.int.
  unfold Closest.INT_MAX, Closest.INT_MIN.
  split.
  - intros Hr.
    destruct (decide (_ ≤ x - z ≤ _)); simpl in Hr; [|done].
    destruct (decide (_ ≤ Z.abs (x - z) ≤ _)); simpl in Hr; [|done].
    destruct (decide (_ ≤ y - z ≤ _)); simpl in Hr; [|done].
    destruct (decide (_ ≤ Z.abs (y - z) ≤ _)); simpl in Hr; [|done].
    split; [lia|]. split; [lia|].
    destruct (decide (Z.abs (x - z) < Z.abs (y - z))); [by simplify_eq|].
    destruct (decide (Z.abs (x - z) > Z.abs (y - z))); by simplify_eq.
  - intros (Hx & Hy & ->).
    rewrite (decide_True (P := _ ≤ x - z ≤ _)) by lia. simpl.
    rewrite (decide_True (P := _ ≤ Z.abs (x - z) ≤ _)) by lia. simpl.
    rewrite (decide_True (P := _ ≤ y - z ≤ _)) by lia. simpl.
    rewrite (decide_True (P := _ ≤ Z.abs (y - z) ≤ _)) by lia. simpl.
    destruct (decide (Z.abs (x - z) < Z.abs (y - z))); [done|].
    by destruct (decide (Z.abs (x - z) > Z.abs (y - z))).
Qed.

(** X10. Exchanging the two persons exchanges the answers 1 and 2 and keeps
    the answer 0; the one call is defined exactly when the other is. *)
Theorem findClosest_swap x y z :
  (Closest.findClosest y x z = Some 1 ↔ Closest.findClosest x y z = Some 2) ∧
  (Closest.findClosest y x z = Some 2 ↔ Closest.findClosest x y z = Some 1) ∧
  (Closest.findClosest y x z = Some 0 ↔ Closest.findClosest x y z = Some 0) ∧
  (Closest.findClosest y x z = None ↔ Closest.findClosest x y z = None).
Proof.
  rewrite !findClosest_cases.
  assert (∀ a b c, Closest.findClosest a b c = None ↔
                   ¬ is_Some (Closest.findClosest a b c)) as Hnone.
  { intros a b c. rewrite <- eq_None_not_Some. done. }
  rewrite !Hnone, !closest_defined.
  repeat split; repeat case_decide; intuition lia.
Qed.

(** X11. [findClosest] returns 0 exactly when it is defined and the two
    persons are at the same place or at mirrored places around [z]. *)
Theorem findClosest_tie x y z :
  Closest.findClosest x y z = Some 0 ↔
  (- Closest.INT_MAX ≤ x - z ≤ Closest.INT_MAX) ∧
  (- Closest.INT_MAX ≤ y - z ≤ Closest.INT_MAX) ∧
  (x = y ∨ x + y = 2 * z).
Proof.
  rewrite findClosest_cases. repeat case_decide; intuition lia.
Qed.

(** ** The functions against the schedules of the input *)

Lemma before_lookup x y (l : list Z) :
  before x y l → ∃ i j, l !! i = Some x ∧ l !! j = Some y ∧ (i < j)%nat.
Proof.
  intros (l1 & l2 & l3 & ->).
  exists (length l1), (length l1 + S (length l2))%nat. split; [|split; [|lia]].
  - by rewrite list_lookup_middle.
  - rewrite lookup_app_r by lia.
    replace (length l1 + S (length l2) - length l1)%nat
      with (S (length l2)) by lia.
    simpl. by rewrite list_lookup_middle.
Qed.

Lemma schedule_acyclic n pre r : schedule n pre r → acyclic pre.
Proof.
  intros [Hperm Hord].
  assert (NoDup r) as Hnd by (rewrite Hperm; apply NoDup_seqZ).
  assert (∀ a b, tc (depends pre) a b →
                 ∃ i j, r !! i = Some b ∧ r !! j = Some a ∧ (i < j)%nat) as Htc.
  { induction 1 as [a b Hab|a b c Hab _ IH].
    - by apply before_lookup, Hord.
    - destruct IH as (i & j & Hi & Hj & Hij).
      apply Hord, before_lookup in Hab as (j' & k & Hj' & Hk & Hjk).
      rewrite (NoDup_lookup _ _ _ _ Hnd Hj' Hj) in Hjk.
      exists i, k. split; [done|]. split; [done|]. lia. }
  intros v (i & j & Hi & Hj & Hij)%Htc.
  rewrite (NoDup_lookup _ _ _ _ Hnd Hi Hj) in Hij. lia.
Qed.

Lemma findOrder_schedule n pre :
  valid_input n pre → Z.of_nat (length pre) ≤ max_int → acyclic pre →
  ∃ r, findOrder n pre = Some r ∧ schedule n pre r.
Proof.
  intros Hvalid Hsmall Hacyc.
  destruct (findOrder_topo_spec n pre Hvalid Hsmall)
    as (t & Ht & Hnd & Hrg & Hfull & Hord).
  apply Hfull in Hacyc as Hlen. unfold findOrder. rewrite Ht. simpl.
  rewrite decide_True by (by apply length_full; [apply Hvalid|]).
  exists t. split; [done|]. split; [|by apply Hord].
  apply submseteq_length_Permutation.
  - apply NoDup_submseteq; [done|]. intros v Hv%Hrg. apply elem_of_seqZ. lia.
  - rewrite length_seqZ. lia.
Qed.

(** X12. [canFinish] answers the question of the exercise: on every
    well-formed input of at most [max_int] pairs it returns [true] exactly when the input has a
    schedule, an ordering of all the items of [[0, n)] in which, for every
    pair [(a, b)], the item [b] comes before the item [a]. *)
Theorem canFinish_iff_schedule_exists n pre :
  valid_input n pre → Z.of_nat (length pre) ≤ max_int →
  canFinish n pre = Some true ↔ ∃ r, schedule n pre r.
Proof.
  intros Hvalid Hsmall.
  destruct (canFinish_verdict n pre Hvalid Hsmall) as (b & -> & Hiff).
  split.
  - intros [= ->].
    destruct (findOrder_schedule n pre Hvalid Hsmall) as (r & _ & Hr).
    + by apply Hiff.
    + by exists r.
  - intros [r Hr%schedule_acyclic]. f_equal. by apply Hiff.
Qed.

Lemma canFinish_iff_schedule_exists_witness :
  canFinish 4 diamond = Some true ↔ ∃ r, schedule 4 diamond r.
Proof.
  apply (canFinish_iff_schedule_exists 4 diamond).
  - apply (bool_decide_unpack _). vm_compute. exact I.
  - apply (bool_decide_unpack _). vm_compute. exact I.
Defined.

(** X13. [findOrder] never returns a wrong answer: on every well-formed
    input of at most [max_int] pairs its result is either a schedule of the input, or the empty
    sequence, and then (unless [n = 0], where the empty sequence is the
    schedule) the input has no schedule at all. *)
Theorem findOrder_schedule_or_none n pre :
  valid_input n pre → Z.of_nat (length pre) ≤ max_int →
  ∃ r, findOrder n pre = Some r ∧
       (schedule n pre r ∨ (r = [] ∧ ∀ s, ¬ schedule n pre s)).
Proof.
  intros Hvalid Hsmall. pose proof (proj1 Hvalid) as Hn.
  destruct (findOrder_topo_spec n pre Hvalid Hsmall)
    as (t & Ht & Hnd & Hrg & Hfull & Hord).
  destruct (decide (length t = Z.to_nat n)) as [Hlen|Hlen].
  - apply Hfull in Hlen as Hacyc.
    destruct (findOrder_schedule n pre Hvalid Hsmall Hacyc) as (r & Hr & Hs).
    eauto.
  - exists []. split.
    + unfold findOrder. rewrite Ht. simpl. by rewrite decide_False by lia.
    + right. split; [done|]. intros s Hs%schedule_acyclic. by apply Hlen, Hfull.
Qed.

Lemma findOrder_schedule_or_none_witness :
  ∃ r, findOrder 2 two_cycle = Some r ∧
       (schedule 2 two_cycle r ∨ (r = [] ∧ ∀ s, ¬ schedule 2 two_cycle s)).
Proof.
  apply (findOrder_schedule_or_none 2 two_cycle).
  - apply (bool_decide_unpack _). vm_compute. exact I.
  - apply (bool_decide_unpack _). vm_compute. exact I.
Defined.
